(** * Lead modes and self-energy (kwant/physics/leads.py)

    A shallow embedding of [kwant.physics.leads]: the construction of the
    translation eigenproblem ([setup_linsys]), its uniform wrapper
    ([unified_eigenproblem]), the resolution of the propagating modes
    ([make_proper_modes]), the drivers [modes] and [selfenergy], and the
    closed-form [square_selfenergy].

    Conventions of the embedding.
    - A floating-point number is a real number of [R] and a complex one a pair
      of reals; rounding, infinities and NaN are not represented.  A real array
      is a complex array whose imaginary parts vanish, so the dtype tests of the
      source become tests on the imaginary parts.
    - A 2-D array is a [matrix]: its shape and its rows.  A 1-D array is a list.
    - The factorisations of LAPACK reached through [scipy.linalg] and
      [kwant.linalg] (which is not part of the sources at hand) are fields of
      the record [LinAlg]; each returns [None] where the library raises.
    - A Python exception is a value of [error]; a computation is a [Res]. *)

From Stdlib Require Import Reals Lra Lia List Bool Arith PeanoNat Permutation Sorted.
Import ListNotations.

Set Implicit Arguments.

Local Open Scope R_scope.

(** ** Scalars *)

Definition Rltb (x y : R) : bool := if Rlt_dec x y then true else false.
Definition Rleb (x y : R) : bool := if Rle_dec x y then true else false.
Definition Reqb (x y : R) : bool := if Req_dec_T x y then true else false.

(** [np.sign] on a real number. *)
Definition Rsign (x : R) : R :=
  if Rltb x 0 then -1 else if Rltb 0 x then 1 else 0.

(** [math.copysign x y] for a [y] that is not a zero: the magnitude of [x]
    with the sign of [y].  (On the zeros Python looks at the sign bit, which
    the reals do not have; the embedding gives the positive result.) *)
Definition copysign (x y : R) : R :=
  if Rltb y 0 then - Rabs x else Rabs x.

Definition C : Type := (R * R)%type.

Definition Re (z : C) : R := fst z.
Definition Im (z : C) : R := snd z.
Definition RtoC (x : R) : C := (x, 0).
Definition C0 : C := (0, 0).
Definition C1 : C := (1, 0).
Definition Ci : C := (0, 1).
Definition Cadd (a b : C) : C := (Re a + Re b, Im a + Im b).
Definition Copp (a : C) : C := (- Re a, - Im a).
Definition Csub (a b : C) : C := (Re a - Re b, Im a - Im b).
Definition Cmul (a b : C) : C :=
  (Re a * Re b - Im a * Im b, Re a * Im b + Im a * Re b).
Definition Cconj (a : C) : C := (Re a, - Im a).
Definition Cnorm2 (a : C) : R := Re a * Re a + Im a * Im a.
Definition Cabs (a : C) : R := sqrt (Cnorm2 a).
Definition Cinv (a : C) : C := (Re a / Cnorm2 a, - Im a / Cnorm2 a).
Definition Cdiv (a b : C) : C := Cmul a (Cinv b).
Definition Cscale (x : R) (a : C) : C := (x * Re a, x * Im a).
(** A complex number is nonzero ([np.any] on one entry). *)
Definition Cnonzero (a : C) : bool := negb (Reqb (Re a) 0) || negb (Reqb (Im a) 0).

(** [np.angle]: the argument of a complex number in (-pi, pi], that is
    [arctan2 (Im z) (Re z)]. *)
Definition angle (z : C) : R :=
  if Rltb 0 (Re z) then atan (Im z / Re z)
  else if Rltb (Re z) 0 then
    (if Rleb 0 (Im z) then atan (Im z / Re z) + PI else atan (Im z / Re z) - PI)
  else if Rltb 0 (Im z) then PI / 2
  else if Rltb (Im z) 0 then - (PI / 2)
  else 0.

Definition Rsum (l : list R) : R := fold_left Rplus l 0.
Definition Csum (l : list C) : C := fold_left Cadd l C0.

(** ** Exceptions *)

Inductive error : Type :=
| ShapeError               (* ValueError: Incompatible matrix sizes for h_cell and h_hop. *)
| DegenerateHoppingError   (* ValueError: Inter-cell hopping is exactly zero. *)
| FlatBandError            (* RuntimeError: Flat band encountered at the requested energy *)
| ZeroVelocityError        (* RuntimeError: Found a mode with zero or close to zero velocity. *)
| ModeCountMismatchError   (* RuntimeError: Numbers of left- and right-propagating modes differ *)
| AssertionError           (* assert: Corrupt output of svd. *)
| BroadcastError           (* ValueError raised by numpy on an ill-shaped assignment *)
| IndexError               (* index out of range *)
| ZeroDivisionError        (* float division by zero *)
| LinAlgError.             (* anything raised inside a linear-algebra kernel *)

Inductive Res (A : Type) : Type :=
| Ok : A -> Res A
| Err : error -> Res A.

Arguments Ok {A} _.
Arguments Err {A} _.

Definition bind {A B : Type} (r : Res A) (k : A -> Res B) : Res B :=
  match r with
  | Ok a => k a
  | Err e => Err e
  end.

(** The result of a library call: [None] is an exception of the library. *)
Definition lift {A : Type} (o : option A) : Res A :=
  match o with
  | Some a => Ok a
  | None => Err LinAlgError
  end.

Declare Scope res_scope.
Delimit Scope res_scope with res.
Notation "x <- c ;; k" := (bind c (fun x => k))
  (at level 61, c at next level, right associativity) : res_scope.
Notation "' p <- c ;; k" := (bind c (fun x => let p := x in k))
  (at level 61, p pattern, c at next level, right associativity) : res_scope.
Local Open Scope res_scope.

(** ** Arrays *)

Record matrix : Type := Mat {
  nrows : nat;
  ncols : nat;
  rows : list (list C)
}.

(** [M[i, j]]. *)
Definition get (M : matrix) (i j : nat) : C := nth j (nth i (rows M) []) C0.

(** The array of shape [(r, c)] whose entry [(i, j)] is [f i j]. *)
Definition tabulate (r c : nat) (f : nat -> nat -> C) : matrix :=
  Mat r c (map (fun i => map (fun j => f i j) (seq 0 c)) (seq 0 r)).

Definition zeros (r c : nat) : matrix := tabulate r c (fun _ _ => C0).
Definition identity (k : nat) : matrix :=
  tabulate k k (fun i j => if Nat.eqb i j then C1 else C0).

Definition shape (M : matrix) : nat * nat := (nrows M, ncols M).

(** [M.T], [M.conj()], [-M], [z * M], [M + N], [M - N], [dot(M, N)]. *)
Definition transpose (M : matrix) : matrix :=
  tabulate (ncols M) (nrows M) (fun i j => get M j i).
Definition conj (M : matrix) : matrix :=
  tabulate (nrows M) (ncols M) (fun i j => Cconj (get M i j)).
Definition mopp (M : matrix) : matrix :=
  tabulate (nrows M) (ncols M) (fun i j => Copp (get M i j)).
Definition mscale (z : C) (M : matrix) : matrix :=
  tabulate (nrows M) (ncols M) (fun i j => Cmul z (get M i j)).
Definition madd (M N : matrix) : matrix :=
  tabulate (nrows M) (ncols M) (fun i j => Cadd (get M i j) (get N i j)).
Definition msub (M N : matrix) : matrix :=
  tabulate (nrows M) (ncols M) (fun i j => Csub (get M i j) (get N i j)).
Definition dot (M N : matrix) : matrix :=
  tabulate (nrows M) (ncols N)
    (fun i j => Csum (map (fun k => Cmul (get M i k) (get N k j)) (seq 0 (ncols M)))).

(** Slices: [M[:k]], [M[k:]], [M[:, :k]], [M[:, k:]]. *)
Definition rows_to (k : nat) (M : matrix) : matrix :=
  tabulate (Nat.min k (nrows M)) (ncols M) (fun i j => get M i j).
Definition rows_from (k : nat) (M : matrix) : matrix :=
  tabulate (nrows M - k) (ncols M) (fun i j => get M (i + k) j).
Definition cols_to (k : nat) (M : matrix) : matrix :=
  tabulate (nrows M) (Nat.min k (ncols M)) (fun i j => get M i j).
Definition cols_from (k : nat) (M : matrix) : matrix :=
  tabulate (nrows M) (ncols M - k) (fun i j => get M i (j + k)).

(** [M[:, indx]] for an index array, and the assignment [M[:, indx] = Q]
    (on a repeated index the last column written stays). *)
Definition take_cols (indx : list nat) (M : matrix) : matrix :=
  tabulate (nrows M) (length indx) (fun i t => get M i (nth t indx 0%nat)).

Fixpoint last_pos (j : nat) (indx : list nat) (t : nat) : option nat :=
  match indx with
  | [] => None
  | x :: rest =>
      match last_pos j rest (S t) with
      | Some p => Some p
      | None => if Nat.eqb x j then Some t else None
      end
  end.

Definition put_cols (indx : list nat) (Q M : matrix) : matrix :=
  tabulate (nrows M) (ncols M)
    (fun i j => match last_pos j indx 0 with
                | Some t => get Q i t
                | None => get M i j
                end).

(** [M * w] and [M / w] for a 1-D array [w]: numpy broadcasts [w] along the
    rows, so column [j] is scaled by [w[j]]. *)
Definition scale_cols (M : matrix) (w : list C) : matrix :=
  tabulate (nrows M) (ncols M) (fun i j => Cmul (get M i j) (nth j w C0)).
Definition div_cols (M : matrix) (w : list R) : matrix :=
  tabulate (nrows M) (ncols M) (fun i j => Cscale (/ nth j w 0) (get M i j)).

(** [np.c_[M, N]]: the columns of [M] followed by those of [N]. *)
Definition hstack (M N : matrix) : matrix :=
  tabulate (nrows M) (ncols M + ncols N)
    (fun i j => if Nat.ltb j (ncols M) then get M i j else get N i (j - ncols M)).

(** The assignment [M[r0:r0+h, c0:c0+w] = X] for a block [X] of shape [(h, w)]. *)
Definition set_block (r0 c0 : nat) (X M : matrix) : matrix :=
  tabulate (nrows M) (ncols M)
    (fun i j =>
       if (Nat.leb r0 i && Nat.ltb i (r0 + nrows X) &&
           Nat.leb c0 j && Nat.ltb j (c0 + ncols X))%bool
       then get X (i - r0) (j - c0) else get M i j).

(** The block [M[r0:r0+h, c0:c0+w]]. *)
Definition block (r0 c0 h w : nat) (M : matrix) : matrix :=
  tabulate h w (fun i j => get M (i + r0) (j + c0)).

(** [np.any(M)] and [np.any(M.imag)]. *)
Definition complex_any (M : matrix) : bool :=
  existsb (fun row => existsb Cnonzero row) (rows M).
Definition any_imag (M : matrix) : bool :=
  existsb (fun row => existsb (fun z => negb (Reqb (Im z) 0)) row) (rows M).

(** [npl.norm(M, 1)]: the largest column sum of magnitudes. *)
Definition norm1 (M : matrix) : R :=
  fold_left Rmax
    (map (fun j => Rsum (map (fun i => Cabs (get M i j)) (seq 0 (nrows M))))
         (seq 0 (ncols M))) 0.

(** 1-D helpers: [a[mask]], [np.sum(mask)], [a[i]]. *)
Fixpoint select_mask {A : Type} (mask : list bool) (a : list A) : list A :=
  match mask, a with
  | b :: mask', x :: a' => if b then x :: select_mask mask' a' else select_mask mask' a'
  | _, _ => []
  end.
Definition count_true (mask : list bool) : nat := length (filter (fun b => b) mask).
Definition index {A : Type} (a : list A) (i : nat) : Res A :=
  match nth_error a i with
  | Some x => Ok x
  | None => Err IndexError
  end.

(** numpy's assignment of [X] into a target of shape [(h, w)]: [X] is
    broadcast when one of its dimensions is 1, and the shapes must agree
    otherwise. *)
Definition broadcast_to (h w : nat) (X : matrix) : Res matrix :=
  if ((Nat.eqb (nrows X) h || Nat.eqb (nrows X) 1) &&
      (Nat.eqb (ncols X) w || Nat.eqb (ncols X) 1))%bool
  then Ok (tabulate h w
             (fun i j => get X (if Nat.eqb (nrows X) h then i else 0%nat)
                               (if Nat.eqb (ncols X) w then j else 0%nat)))
  else Err BroadcastError.

(** The assignment [M[r0:r0+h, c0:c0+w] = X]. *)
Definition assign_block (r0 c0 h w : nat) (X M : matrix) : Res matrix :=
  X <- broadcast_to h w X;;
  Ok (set_block r0 c0 X M).

(** [np.resize(a, (k,))]: [a] repeated cyclically up to length [k]. *)
Definition resize (a : list nat) (k : nat) : list nat :=
  map (fun t => nth (t mod length a) a 0%nat) (seq 0 k).

(** [np.diff] on a complex 1-D array. *)
Fixpoint diff (a : list C) : list C :=
  match a with
  | x :: ((y :: _) as rest) => Csub y x :: diff rest
  | _ => []
  end.

(** [np.argwhere(mask).flatten() + 1]. *)
Fixpoint argwhere_succ (mask : list bool) (t : nat) : list nat :=
  match mask with
  | [] => []
  | b :: rest => if b then S t :: argwhere_succ rest (S t) else argwhere_succ rest (S t)
  end.

(** [a[lo:hi]] on a list. *)
Definition slice {A : Type} (lo hi : nat) (a : list A) : list A :=
  firstn (hi - lo) (skipn lo a).

(** [zip(b[:-1], b[1:])]. *)
Fixpoint intervals (b : list nat) : list (nat * nat) :=
  match b with
  | x :: ((y :: _) as rest) => (x, y) :: intervals rest
  | _ => []
  end.

(** [a[indx] = vals] on a real 1-D array. *)
Definition put_vals (indx : list nat) (vals a : list R) : list R :=
  map (fun j => match last_pos j indx 0 with
                | Some t => nth t vals 0
                | None => nth j a 0
                end) (seq 0 (length a)).

(** [np.lexsort]: a stable sort on the first key, then on the second, ...;
    the last key given is the primary one. *)
Fixpoint insert_by (key : nat -> R) (i : nat) (l : list nat) : list nat :=
  match l with
  | [] => [i]
  | j :: l' => if Rleb (key i) (key j) then i :: j :: l' else j :: insert_by key i l'
  end.

Fixpoint stable_sort (key : nat -> R) (l : list nat) : list nat :=
  match l with
  | [] => []
  | i :: l' => insert_by key i (stable_sort key l')
  end.

Definition lexsort (keys : list (list R)) (len : nat) : list nat :=
  fold_left (fun order key => stable_sort (fun i => nth i key 0) order) keys (seq 0 len).

(** ** Result containers *)

(** The propagating modes of a lead: three parallel arrays. *)
Record PropagatingModes : Type := {
  wave_functions : matrix;
  velocities : list R;
  momenta : list R
}.

(** The stabilized eigendecomposition of the translation operator. *)
Record StabilizedModes : Type := {
  vecs : matrix;
  vecslmbdainv : matrix;
  nmodes : nat;
  sqrt_hop : option matrix
}.

(** The eigenproblem of [setup_linsys]: the pencil [(A, B)] ([B] is [None]
    for a regular problem), [v] (part of the SVD of the hopping, or [None])
    and the function extracting the wave function in the unit cell. *)
Record Linsys : Type := {
  eigenproblem : matrix * option matrix;
  v : option matrix;
  extract : matrix -> list C -> Res matrix
}.

(** What [unified_eigenproblem] returns. *)
Record Eigen : Type := {
  ev : list C;
  evanselect : list bool;
  propselect : list bool;
  vec_gen : list bool -> Res matrix;
  ord_schur : list bool -> Res matrix
}.

(** ** The linear-algebra collaborator *)

(** The routines of [scipy.linalg] ([la]) and [kwant.linalg] ([kla]) the
    module calls, the unspecified sort [np.argsort], the contents of an
    [np.empty] array, and the machine epsilon [np.finfo(dtype).eps] of the
    precision in use. *)
Record LinAlg : Type := {
  lu_t : Type;
  finfo_eps : R;
  np_empty : nat -> list R;
  np_argsort : list R -> list nat;
  la_svd : matrix -> option (matrix * list R * matrix);
  la_inv : matrix -> option matrix;
  la_solve : matrix -> matrix -> option matrix;
  la_qr : matrix -> option (matrix * matrix);
  la_eigh : matrix -> option (list R * matrix);
  kla_lu_factor : matrix -> option lu_t;
  kla_rcond_from_lu : lu_t -> R -> R;
  kla_lu_solve : lu_t -> matrix -> option matrix;
  kla_schur : matrix -> option (matrix * matrix * list C);
  kla_evecs_from_schur : matrix -> matrix -> list bool -> option matrix;
  kla_order_schur : list bool -> matrix -> matrix -> option (matrix * matrix);
  kla_gen_schur : matrix -> matrix ->
                  option (matrix * matrix * matrix * list C * list C);
  kla_evecs_from_gen_schur : matrix -> matrix -> matrix -> list bool -> option matrix;
  kla_order_gen_schur : list bool -> matrix -> matrix -> matrix ->
                        option (matrix * matrix * matrix)
}.

Section Leads.

Variable K : LinAlg.

(** ** StabilizedModes.selfenergy *)

Definition selfenergy_of (sm : StabilizedModes) : Res matrix :=
  let v := sqrt_hop sm in
  let vecs := cols_from (nmodes sm) (vecs sm) in
  let vecslmbdainv := cols_from (nmodes sm) (vecslmbdainv sm) in
  match v with
  | Some v =>
      x <- lift (la_solve K vecslmbdainv (conj (transpose v)));;
      Ok (dot v (dot vecs x))
  | None =>
      x <- lift (la_solve K (transpose vecslmbdainv) (transpose vecs));;
      Ok (transpose x)
  end.

(** ** setup_linsys *)

(** The stabilization argument: [None], or a sequence of two entries of
    which the first may itself be [None] (the value the function gives it
    when the argument is [None]). *)
Definition stabilization_t : Type := option (option bool * bool).

(** Lines 194-196: the SVD of the hopping and the number of singular values
    above [eps * s[0]]. *)
Definition hopping_svd (h_hop : matrix) (eps : R)
  : Res (matrix * list R * matrix * nat) :=
  '(u, s, vh) <- lift (la_svd K h_hop);;
  if negb (Nat.eqb (ncols h_hop) (ncols vh)) then Err AssertionError else
  s0 <- index s 0;;
  Ok (u, s, vh, length (filter (fun x => Rltb (eps * s0) x) s)).

(** Lines 201-216: the hopping is well conditioned, the regular transfer
    matrix is used. *)
Definition fast_path (n : nat) (h_cell h_hop : matrix) : Res Linsys :=
  hop_inv <- lift (la_inv K h_hop);;
  let A := zeros (2 * n) (2 * n) in
  A <- assign_block 0 0 n n (dot hop_inv (mopp h_cell)) A;;
  A <- assign_block 0 n n n (mopp hop_inv) A;;
  A <- assign_block n 0 n n (conj (transpose h_hop)) A;;
  let extract_wf := fun (psi : matrix) (lmbdainv : list C) => Ok (rows_to n psi) in
  Ok {| eigenproblem := (A, None); v := None; extract := extract_wf |}.

(** Lines 226-232: the SVD factors restricted to the nonzero singular
    values and rescaled by their square roots. *)
Definition reduced_bases (n : nat) (u : matrix) (s : list R) (vh : matrix)
           (n_nonsing : nat) : Res (matrix * matrix) :=
  let u := cols_to n_nonsing u in
  let s := firstn n_nonsing s in
  let sqrt_s := map (fun x => RtoC (sqrt x)) s in
  let u := scale_cols u sqrt_s in
  let v := zeros n n_nonsing in
  v <- assign_block 0 0 (Nat.min (ncols vh) n) n_nonsing
         (conj (transpose (rows_to n_nonsing vh))) v;;
  Ok (u, scale_cols v sqrt_s).

(** Line 244: [stabilization[0] or (stabilization[0] is None and not matrices_real)]. *)
Definition add_imaginary (stab0 : option bool) (matrices_real : bool) : bool :=
  match stab0 with
  | Some b => b
  | None => negb matrices_real
  end.

(** Lines 261-262: the cell Hamiltonian with the anti-Hermitian term. *)
Definition regularized (h_cell u v : matrix) : matrix :=
  let temp := madd (dot u (conj (transpose u))) (dot v (conj (transpose v))) in
  madd h_cell (mscale Ci temp).

(** Lines 257-271: factor the regularized Hamiltonian, or give up. *)
Definition stabilize (h_cell u v : matrix) (eps : R) : Res (matrix * lu_t K * bool) :=
  let h := regularized h_cell u v in
  sol <- lift (kla_lu_factor K h);;
  let rcond := kla_rcond_from_lu K sol (norm1 h) in
  if Rltb rcond eps then Err FlatBandError else Ok (h, sol, true).

(** Lines 243-271: the LU factorisation of the on-site Hamiltonian, with the
    flag [need_to_stabilize]. *)
Definition onsite_inverse (h_cell h_hop u v : matrix) (eps : R) (stab0 : option bool)
  : Res (matrix * lu_t K * bool) :=
  let matrices_real := negb (any_imag h_cell) && negb (any_imag h_hop) in
  if add_imaginary stab0 matrices_real then stabilize h_cell u v eps
  else
    let h := h_cell in
    sol <- lift (kla_lu_factor K h);;
    let rcond := kla_rcond_from_lu K sol (norm1 h) in
    if Rltb rcond eps then stabilize h_cell u v eps else Ok (h, sol, false).

(** Lines 276-281. *)
Definition extract_general (u v : matrix) (n_nonsing : nat) (need_to_stabilize : bool)
           (sol : lu_t K) (psi : matrix) (lmbdainv : list C) : Res matrix :=
  let wf := msub (mopp (dot u (scale_cols (rows_to n_nonsing psi) lmbdainv)))
                 (dot v (rows_from n_nonsing psi)) in
  let wf := if need_to_stabilize
            then madd wf (mscale Ci (madd (dot v (rows_to n_nonsing psi))
                                          (dot u (scale_cols (rows_from n_nonsing psi) lmbdainv))))
            else wf in
  lift (kla_lu_solve K sol wf).

(** Lines 285-310: the pencil [(A, B)] of the generalized problem. *)
Definition pencil (u v : matrix) (n_nonsing : nat) (need_to_stabilize : bool)
           (sol : lu_t K) : Res (matrix * matrix) :=
  let k := n_nonsing in
  let A := zeros (2 * k) (2 * k) in
  let B := zeros (2 * k) (2 * k) in
  A <- assign_block k 0 k k (identity k) A;;
  temp <- lift (kla_lu_solve K sol v);;
  let temp2 := dot (conj (transpose u)) temp in
  A <- (if need_to_stabilize then assign_block 0 0 k k (mscale (Copp Ci) temp2) A else Ok A);;
  A <- assign_block 0 k k k temp2 A;;
  let temp2 := dot (conj (transpose v)) temp in
  A <- (if need_to_stabilize
        then X <- broadcast_to k k (mscale Ci temp2);;
             Ok (set_block k 0 (msub (block k 0 k k A) X) A)
        else Ok A);;
  A <- assign_block k k k k temp2 A;;
  B <- assign_block 0 k k k (mopp (identity k)) B;;
  temp <- lift (kla_lu_solve K sol u);;
  let temp2 := dot (conj (transpose u)) temp in
  B <- assign_block 0 0 k k (mopp temp2) B;;
  B <- (if need_to_stabilize
        then X <- broadcast_to k k (mscale Ci temp2);;
             Ok (set_block 0 k (madd (block 0 k k k B) X) B)
        else Ok B);;
  let temp2 := dot (conj (transpose v)) temp in
  B <- assign_block k 0 k k (mopp temp2) B;;
  B <- (if need_to_stabilize then assign_block k k k k (mscale Ci temp2) B else Ok B);;
  Ok (A, B).

(** Lines 322-332: reduce to a regular problem when [stabilization[1]] holds
    (given, or found from the conditioning of [B]). *)
Definition reduce_pencil (A B : matrix) (eps tol : R) (stab1 : bool)
  : Res (matrix * option matrix) :=
  lu_b <- lift (kla_lu_factor K B);;
  let stab1 :=
    if negb stab1
    then Rltb (eps * tol) (kla_rcond_from_lu K lu_b (norm1 B))
    else stab1 in
  if stab1 then
    X <- lift (kla_lu_solve K lu_b A);; Ok (X, None)
  else Ok (A, Some B).

(** Lines 218-219: [None] stands for [[None, False]]. *)
Definition stabilization_flags (stabilization : stabilization_t) : option bool * bool :=
  match stabilization with
  | None => (None, false)
  | Some st => st
  end.

(** Lines 218-333. *)
Definition general_path (n m : nat) (h_cell h_hop u : matrix) (s : list R)
           (vh : matrix) (n_nonsing : nat) (eps tol : R)
           (stabilization : stabilization_t) : Res Linsys :=
  let stabilization := stabilization_flags stabilization in
  '(u, v) <- reduced_bases n u s vh n_nonsing;;
  '(h, sol, need_to_stabilize) <-
     onsite_inverse h_cell h_hop u v eps (fst stabilization);;
  let extract_wf := extract_general u v n_nonsing need_to_stabilize sol in
  '(A, B) <- pencil u v n_nonsing need_to_stabilize sol;;
  let v_out := rows_to m v in
  matrices <- reduce_pencil A B eps tol (snd stabilization);;
  Ok {| eigenproblem := matrices; v := Some v_out; extract := extract_wf |}.

Definition is_none {A : Type} (o : option A) : bool :=
  match o with
  | None => true
  | Some _ => false
  end.

Definition setup_linsys (h_cell h_hop : matrix) (tol : R)
           (stabilization : stabilization_t) : Res Linsys :=
  let n := nrows h_cell in
  let m := ncols h_hop in
  if negb (complex_any h_hop) then Err DegenerateHoppingError else
  let eps := finfo_eps K * tol in
  '(u, s, vh, n_nonsing) <- hopping_svd h_hop eps;;
  if Nat.eqb n_nonsing n && is_none stabilization
  then fast_path n h_cell h_hop
  else general_path n m h_cell h_hop u s vh n_nonsing eps tol stabilization.

(** ** unified_eigenproblem *)

Definition unified_eigenproblem (a : matrix) (b : option matrix) (tol : R) : Res Eigen :=
  match b with
  | None =>
      let eps := finfo_eps K * tol in
      '(t, z, ev) <- lift (kla_schur K a);;
      (* Right-decaying modes. *)
      let select := map (fun e => Rltb (1 + eps) (Cabs e)) ev in
      (* Propagating modes. *)
      let propselect := map (fun e => Rltb (Rabs (Cabs e - 1)) eps) ev in
      Ok {| ev := ev; evanselect := select; propselect := propselect;
            vec_gen := fun x => lift (kla_evecs_from_schur K t z x);
            ord_schur := fun x => r <- lift (kla_order_schur K x t z);; Ok (snd r) |}
  | Some b =>
      let eps := finfo_eps K * tol in
      '(s, t, z, alpha, beta) <- lift (kla_gen_schur K a b);;
      let select :=
        map (fun ab => Rltb ((1 + eps) * Cabs (snd ab)) (Cabs (fst ab))) (combine alpha beta) in
      let propselect :=
        map (fun ab => Rltb (Rabs (Cabs (fst ab) - Cabs (snd ab))) (eps * Cabs (snd ab)))
            (combine alpha beta) in
      let ev := map (fun ab => Cdiv (fst ab) (snd ab)) (combine alpha beta) in
      Ok {| ev := ev; evanselect := select; propselect := propselect;
            vec_gen := fun x => lift (kla_evecs_from_gen_schur K s t z x);
            ord_schur := fun x => r <- lift (kla_order_gen_schur K x s t z);; Ok (snd r) |}
  end.

(** ** make_proper_modes *)

(** Lines 427-435: the boundaries of the clusters of nearby eigenvalues on
    the doubled sequence of indices sorted by angle. *)
Definition cluster_boundaries (lmbdainv : list C) (tol : R) : list nat * list nat :=
  let eps := finfo_eps K * tol in
  let angles := map angle lmbdainv in
  let sort_order := resize (np_argsort K angles) (2 * length angles) in
  let boundaries :=
    argwhere_succ
      (map (fun d => Rltb eps (Cabs d))
           (diff (map (fun i => nth i lmbdainv C0) sort_order))) 0 in
  let boundaries :=
    if (Nat.eqb (length boundaries) 0 && negb (Nat.eqb (length angles) 0))%bool
    then [0%nat; length angles] else boundaries in
  (sort_order, boundaries).

(** Lines 441-497: one cluster.  The wave functions of the cluster are
    orthonormalized, and rotated to diagonalize the velocity operator. *)
Definition cluster_step (n : nat) (indx : list nat)
           (st : matrix * matrix * list R) : Res (matrix * matrix * list R) :=
  let '(psi, full_psi, velocities) := st in
  '(q, r) <- lift (la_qr K (take_cols indx full_psi));;
  let full_psi := put_cols indx q full_psi in
  x <- lift (la_solve K (transpose r) (transpose (take_cols indx psi)));;
  let psi := put_cols indx (transpose x) psi in
  let vel_op :=
    mscale (Copp Ci)
      (dot (conj (transpose (take_cols indx (rows_from n psi))))
           (take_cols indx (rows_to n psi))) in
  let vel_op := madd vel_op (conj (transpose vel_op)) in
  '(vel_vals, rot) <- lift (la_eigh K vel_op);;
  let psi := put_cols indx (dot (take_cols indx psi) rot) psi in
  let full_psi := put_cols indx (dot (take_cols indx full_psi) rot) full_psi in
  Ok (psi, full_psi, put_vals indx vel_vals velocities).

(** Lines 437-497: the loop over the clusters, left as soon as an interval
    ends beyond one full turn. *)
Fixpoint cluster_loop (n len b0 : nat) (sort_order : list nat)
         (ivs : list (nat * nat)) (st : matrix * matrix * list R)
  : Res (matrix * matrix * list R) :=
  match ivs with
  | [] => Ok st
  | (lo, hi) :: rest =>
      if Nat.ltb (b0 + len) hi then Ok st
      else
        st <- cluster_step n (slice lo hi sort_order) st;;
        cluster_loop n len b0 sort_order rest st
  end.

(** Lines 413-497: the wave functions and the velocities the loop leaves. *)
Definition resolve_modes (lmbdainv : list C) (psi : matrix)
           (extract : matrix -> list C -> Res matrix) (tol : R)
  : Res (matrix * matrix * list R) :=
  let nmodes := ncols psi in
  let n := (nrows psi / 2)%nat in
  let velocities := np_empty K nmodes in
  full_psi <- extract psi lmbdainv;;
  let '(sort_order, boundaries) := cluster_boundaries lmbdainv tol in
  cluster_loop n (length lmbdainv) (hd 0%nat boundaries) sort_order
               (intervals boundaries) (psi, full_psi, velocities).

(** Line 506: the three keys of the final sort. *)
Definition sort_keys (velocities momenta : list R) : list (list R) :=
  [velocities;
   map (fun vk => - Rsign (fst vk) * snd vk) (combine velocities momenta);
   map Rsign velocities].

(** Lines 499-518: the two checks, the sort and the normalization. *)
Definition finish_modes (lmbdainv : list C) (vel_eps : R)
           (st : matrix * matrix * list R) : Res (matrix * PropagatingModes) :=
  let '(psi, full_psi, velocities) := st in
  if existsb (fun x => Rltb (Rabs x) vel_eps) velocities
  then Err ZeroVelocityError else
  if negb (Nat.eqb (2 * length (filter (fun x => Rltb x 0) velocities))
                   (length velocities))
  then Err ModeCountMismatchError else
  let momenta := map (fun z => - angle z) lmbdainv in
  if negb (Nat.eqb (length momenta) (length velocities)) then Err BroadcastError else
  let order := lexsort (sort_keys velocities momenta) (length velocities) in
  let velocities := map (fun i => nth i velocities 0) order in
  let norm := map (fun x => sqrt (Rabs x)) velocities in
  let full_psi := div_cols (take_cols order full_psi) norm in
  let psi := div_cols (take_cols order psi) norm in
  let momenta := map (fun i => nth i momenta 0) order in
  Ok (psi, {| wave_functions := full_psi; velocities := velocities; momenta := momenta |}).

Definition make_proper_modes (lmbdainv : list C) (psi : matrix)
           (extract : matrix -> list C -> Res matrix) (tol : R)
  : Res (matrix * PropagatingModes) :=
  let vel_eps := finfo_eps K * tol in
  st <- resolve_modes lmbdainv psi extract tol;;
  finish_modes lmbdainv vel_eps st.

(** ** modes and selfenergy *)

(** [M[:, :k]] for an integer [k = a - b] that may be negative: Python then
    counts from the end. *)
Definition cols_to_diff (a b : nat) (M : matrix) : matrix :=
  if Nat.leb b a then cols_to (a - b) M else cols_to (ncols M - (b - a)) M.

Definition modes (h_cell h_hop : matrix) (tol : R) (stabilization : stabilization_t)
  : Res (PropagatingModes * StabilizedModes) :=
  let m := ncols h_hop in
  let n := nrows h_cell in
  if negb (Nat.eqb (nrows h_cell) (ncols h_cell)) || negb (Nat.eqb (nrows h_cell) (nrows h_hop))
  then Err ShapeError else
  if negb (complex_any h_hop) then
    let v := zeros m 0 in
    Ok ({| wave_functions := zeros n 0; velocities := []; momenta := [] |},
        {| vecs := zeros 0 0; vecslmbdainv := zeros 0 0; nmodes := 0; sqrt_hop := Some v |})
  else
  (* Defer most of the calculation to helper routines. *)
  ls <- setup_linsys h_cell h_hop tol stabilization;;
  let '(matrices, v, extract) := (eigenproblem ls, v ls, extract ls) in
  eig <- unified_eigenproblem (fst matrices) (snd matrices) tol;;
  let n := match v with Some v => ncols v | None => n end in
  let nrightmovers := (count_true (propselect eig) / 2)%nat in
  z <- ord_schur eig (evanselect eig);;
  let evan_vecs := cols_to_diff n nrightmovers z in
  (* Compute the propagating eigenvectors. *)
  prop_vecs <- vec_gen eig (propselect eig);;
  (* Compute their velocity, and, if necessary, rotate them *)
  '(prop_vecs, real_space_data) <-
     make_proper_modes (select_mask (propselect eig) (ev eig)) prop_vecs extract tol;;
  let vecs := hstack (rows_from n prop_vecs) (rows_from n evan_vecs) in
  let vecslmbdainv := hstack (rows_to n prop_vecs) (rows_to n evan_vecs) in
  Ok (real_space_data,
      {| vecs := vecs; vecslmbdainv := vecslmbdainv; nmodes := nrightmovers; sqrt_hop := v |}).

Definition selfenergy (h_cell h_hop : matrix) (tol : R) : Res matrix :=
  r <- modes h_cell h_hop tol None;;
  selfenergy_of (snd r).

End Leads.

(** ** square_selfenergy *)

(** The longitudinal integral [f] of the source (lines 669-673). *)
Definition f (q : R) : C :=
  if Rleb (Rabs q) 2
  then Csub (RtoC (q / 2)) (Cmul Ci (RtoC (sqrt (1 - (q / 2) ^ 2))))
  else RtoC (q / 2 - copysign (sqrt ((q / 2) ^ 2 - 1)) q).

(** The entry [a[p, i]] of a real 2-D array held as its rows. *)
Definition rget (a : list (list R)) (p i : nat) : R := nth i (nth p a []) 0.

(** [width] is an integer and [hopping], [fermi_energy] are Python floats:
    the division by a zero [hopping] raises as soon as the loop over the
    transverse modes runs once. *)
Definition square_selfenergy (width : nat) (hopping fermi_energy : R) : Res matrix :=
  (* Precalculate the transverse wave function. *)
  let factor := PI / (INR width + 1) in
  let prefactor := sqrt (2 / (INR width + 1)) in
  let psi_p_i :=
    map (fun p => map (fun i => prefactor * sin (factor * (INR p + 1) * (INR i + 1)))
                      (seq 0 width)) (seq 0 width) in
  (* Precalculate the integrals of the longitudinal wave functions. *)
  if (Nat.ltb 0 width && Reqb hopping 0)%bool then Err ZeroDivisionError else
  let f_p :=
    map (fun p =>
           let e := 2 * hopping * (1 - cos (factor * (INR p + 1))) in
           let q := (fermi_energy - e) / hopping - 2 in
           f q) (seq 0 width) in
  (* Put everything together into the self energy and return it. *)
  Ok (tabulate width width
        (fun i j =>
           Cmul (RtoC hopping)
                (Csum (map (fun p =>
                              Cmul (RtoC (rget psi_p_i p i * rget psi_p_i p j))
                                   (nth p f_p C0))
                           (seq 0 width))))).

(** The closed form of [square_selfenergy], written after its description:
    the transverse sine modes, the argument [q] of the longitudinal factor,
    the factor with its two branches, and the entries of the result. *)
Module ClosedForm.

Definition psi (width p i : nat) : R :=
  sqrt (2 / (INR width + 1)) * sin (PI * (INR p + 1) * (INR i + 1) / (INR width + 1)).

Definition q (width : nat) (hopping fermi_energy : R) (p : nat) : R :=
  (fermi_energy - 2 * hopping * (1 - cos (PI * (INR p + 1) / (INR width + 1)))) / hopping - 2.

Definition factor (q : R) : C :=
  if Rleb (Rabs q) 2
  then (q / 2, - sqrt (1 - (q / 2) ^ 2))
  else (q / 2 - Rsign q * sqrt ((q / 2) ^ 2 - 1), 0).

Definition entry (width : nat) (hopping fermi_energy : R) (i j : nat) : C :=
  Cscale hopping
    (Csum (map (fun p => Cscale (psi width p i * psi width p j)
                                (factor (q width hopping fermi_energy p)))
               (seq 0 width))).

End ClosedForm.

(** * Notions used in the statements *)

(** Every entry of the array is zero, real and imaginary part. *)
Definition all_zero (M : matrix) : Prop :=
  Forall (fun row => Forall (fun z => z = C0) row) (rows M).

(** The errors of the library and of numpy's shape checks. *)
Definition foreign (e : error) : Prop := e = LinAlgError \/ e = BroadcastError.

(** The two errors raised on the velocities, and the errors raised before
    the velocities are examined. *)
Definition velocity_error (e : error) : Prop :=
  e = ZeroVelocityError \/ e = ModeCountMismatchError.

Definition early_error (e : error) : Prop := ~ velocity_error e.

(** A computation that raises nothing but errors of [P]. *)
Definition raises_only (P : error -> Prop) (A : Type) (r : Res A) : Prop :=
  forall e, r = Err e -> P e.

(** [i] comes before [j] under [key], ties being decided by [before]. *)
Definition lex (key : nat -> R) (before : nat -> nat -> Prop) (i j : nat) : Prop :=
  key i < key j \/ (key i = key j /\ before i j).

(** The order the three keys of [make_proper_modes] define. *)
Definition key_of (k : list R) (i : nat) : R := nth i k 0.

Definition modes_before (k1 k2 k3 : list R) : nat -> nat -> Prop :=
  lex (key_of k3) (lex (key_of k2) (lex (key_of k1) lt)).

Definition count_neg (vels : list R) : nat := length (filter (fun x => Rltb x 0) vels).
Definition count_pos (vels : list R) : nat := length (filter (fun x => Rltb 0 x) vels).

(** The order in which [make_proper_modes] returns the modes. *)
Definition modes_order (lmbdainv : list C) (vels : list R) : list nat :=
  lexsort (sort_keys vels (map (fun z => - angle z) lmbdainv)) (length vels).

(** The first half of the velocities is negative and the second half is
    positive, in equal numbers. *)
Definition halves (vs : list R) : Prop :=
  length vs = (2 * count_neg vs)%nat /\ count_neg vs = count_pos vs /\
  Forall (fun x => x < 0) (firstn (length vs / 2) vs) /\
  Forall (fun x => 0 < x) (skipn (length vs / 2) vs).

Section Statements.

Variable K : LinAlg.

(** Lines 247-257: the anti-Hermitian term is added, either at once or
    after the plain factorisation was found ill conditioned. *)
Definition regularization_attempted (h_cell h_hop : matrix) (eps : R)
           (stabilization : stabilization_t) : Prop :=
  add_imaginary (fst (stabilization_flags stabilization))
                (negb (any_imag h_cell) && negb (any_imag h_hop)) = true \/
  exists sol0, kla_lu_factor K h_cell = Some sol0 /\
               kla_rcond_from_lu K sol0 (norm1 h_cell) < eps.

(** The call of [modes] got as far as the two checks on the velocities:
    [lmbdainv] are the propagating eigenvalues and [st] the wave functions
    and velocities that [make_proper_modes] computed from them. *)
Definition reaches_checks (h_cell h_hop : matrix) (tol : R)
           (stabilization : stabilization_t) (lmbdainv : list C)
           (st : matrix * matrix * list R) : Prop :=
  nrows h_cell = ncols h_cell /\ nrows h_cell = nrows h_hop /\
  complex_any h_hop = true /\
  exists ls eig z prop_vecs,
    setup_linsys K h_cell h_hop tol stabilization = Ok ls /\
    unified_eigenproblem K (fst (eigenproblem ls)) (snd (eigenproblem ls)) tol = Ok eig /\
    ord_schur eig (evanselect eig) = Ok z /\
    vec_gen eig (propselect eig) = Ok prop_vecs /\
    lmbdainv = select_mask (propselect eig) (ev eig) /\
    resolve_modes K lmbdainv prop_vecs (extract ls) tol = Ok st.

(** The two formulas of [StabilizedModes.selfenergy] on the blocks [vecs]
    and [vecslmbdainv]. *)
Definition selfenergy_formula (sqrt_hop : option matrix) (vecs vecslmbdainv : matrix)
           (Sigma : matrix) : Prop :=
  match sqrt_hop with
  | Some v =>
      exists x, la_solve K vecslmbdainv (conj (transpose v)) = Some x /\
                Sigma = dot v (dot vecs x)
  | None =>
      exists x, la_solve K (transpose vecslmbdainv) (transpose vecs) = Some x /\
                Sigma = transpose x
  end.

End Statements.

(** * A run: the single-orbital chain

    The lead is a chain with one orbital per cell, on-site energy [0] (the
    energy is taken at the band centre) and hopping [1].  The record
    [chain] holds the library routines on the arrays this lead brings up:
    the factorisations of a 1 by 1 array, the QR factorisation of a single
    column, the inverse of a 1 by 1 or 2 by 2 array, and the Schur form of
    the transfer matrix of the chain, of eigenvalues [i] and [-i].  A
    routine answers [None] on an array it does not cover. *)

Definition mat1 (z : C) : matrix := Mat 1 1 [[z]].
Definition is_1x1 (M : matrix) : bool := (Nat.eqb (nrows M) 1 && Nat.eqb (ncols M) 1)%bool.
Definition is_2x2 (M : matrix) : bool := (Nat.eqb (nrows M) 2 && Nat.eqb (ncols M) 2)%bool.
Definition Ceqb (a b : C) : bool := (Reqb (Re a) (Re b) && Reqb (Im a) (Im b))%bool.

Fixpoint row_eqb (x y : list C) : bool :=
  match x, y with
  | [], [] => true
  | z :: x', z' :: y' => Ceqb z z' && row_eqb x' y'
  | _, _ => false
  end.

Fixpoint rows_eqb (a b : list (list C)) : bool :=
  match a, b with
  | [], [] => true
  | r :: a', r' :: b' => row_eqb r r' && rows_eqb a' b'
  | _, _ => false
  end.

Definition meqb (M N : matrix) : bool :=
  (Nat.eqb (nrows M) (nrows N) && Nat.eqb (ncols M) (ncols N) &&
   rows_eqb (rows M) (rows N))%bool.

Definition det2 (M : matrix) : C :=
  Csub (Cmul (get M 0 0) (get M 1 1)) (Cmul (get M 0 1) (get M 1 0)).

(** The inverse of a 1 by 1 or 2 by 2 array. *)
Definition inverse (M : matrix) : matrix :=
  if is_1x1 M then mat1 (Cinv (get M 0 0))
  else
    let d := Cinv (det2 M) in
    Mat 2 2 [[Cmul d (get M 1 1); Cmul d (Copp (get M 0 1))];
             [Cmul d (Copp (get M 1 0)); Cmul d (get M 0 0)]].

Definition singular (M : matrix) : bool :=
  if is_1x1 M then negb (Cnonzero (get M 0 0)) else negb (Cnonzero (det2 M)).

(** The Euclidean norm of the first column. *)
Definition col_norm (M : matrix) : R :=
  sqrt (Rsum (map (fun i => Cnorm2 (get M i 0)) (seq 0 (nrows M)))).

(** The transfer matrix of the chain: the matrix of the regular
    eigenproblem, on the fast path and after the reduction of the stabilized
    pencil alike. *)
Definition transfer : matrix := Mat 2 2 [[C0; RtoC (-1)]; [C1; C0]].

(** Its eigenvectors, for the eigenvalues [i] and [-i]. *)
Definition transfer_evecs : matrix := Mat 2 2 [[C1; C1]; [Copp Ci; Ci]].

Definition chain : LinAlg := {|
  lu_t := matrix;
  finfo_eps := / 4503599627370496;
  np_empty := fun n => repeat 0 n;
  np_argsort := fun a => stable_sort (fun i => nth i a 0) (seq 0 (length a));
  la_svd := fun M =>
    if is_1x1 M then
      let z := get M 0 0 in
      Some (mat1 (if Cnonzero z then Cscale (/ Cabs z) z else C1), [Cabs z], mat1 C1)
    else None;
  la_inv := fun M =>
    if ((is_1x1 M || is_2x2 M) && negb (singular M))%bool then Some (inverse M) else None;
  la_solve := fun A B =>
    if (is_1x1 A && negb (singular A) && Nat.eqb (nrows B) 1)%bool
    then Some (dot (inverse A) B) else None;
  la_qr := fun M =>
    if (Nat.eqb (ncols M) 1 && negb (Reqb (col_norm M) 0))%bool
    then Some (tabulate (nrows M) 1 (fun i _ => Cscale (/ col_norm M) (get M i 0)),
               mat1 (RtoC (col_norm M)))
    else None;
  la_eigh := fun M => if is_1x1 M then Some ([Re (get M 0 0)], mat1 C1) else None;
  kla_lu_factor := fun M => if (is_1x1 M || is_2x2 M)%bool then Some M else None;
  kla_rcond_from_lu := fun M norm =>
    if singular M then 0 else / (norm * norm1 (inverse M));
  kla_lu_solve := fun M b => if singular M then None else Some (dot (inverse M) b);
  kla_schur := fun a =>
    if meqb a transfer then Some (a, identity 2, [Ci; Copp Ci]) else None;
  kla_evecs_from_schur := fun t z select =>
    match select with
    | [true; true] => if meqb t transfer then Some transfer_evecs else None
    | _ => None
    end;
  kla_order_schur := fun select t z =>
    if existsb (fun b => b) select then None else Some (t, z);
  kla_gen_schur := fun _ _ => None;
  kla_evecs_from_gen_schur := fun _ _ _ _ => None;
  kla_order_gen_schur := fun _ _ _ _ => None
|}.

Definition h_chain : matrix := mat1 C0.
Definition t_chain : matrix := mat1 C1.
(** The default tolerance, [tol = 1e6]. *)
Definition tol_default : R := 1000000.

(** ** The chain on the fast path: [modes(h_chain, t_chain)] *)

Definition extract_fast : matrix -> list C -> Res matrix := fun psi _ => Ok (rows_to 1 psi).

Definition linsys_fast : Linsys :=
  {| eigenproblem := (transfer, None); v := None; extract := extract_fast |}.

Definition eigen_chain : Eigen :=
  {| ev := [Ci; Copp Ci];
     evanselect := [false; false];
     propselect := [true; true];
     vec_gen := fun x => lift (kla_evecs_from_schur chain transfer (identity 2) x);
     ord_schur := fun x => r <- lift (kla_order_schur chain x transfer (identity 2));;
                           Ok (snd r) |}.

Definition row11 : matrix := Mat 1 2 [[C1; C1]].

(** The modes as [modes] returns them, the left mover first, and the
    self-energy [-i]. *)
Definition modes_psi : matrix :=
  Mat 2 2 [[(/ sqrt 2, 0); (/ sqrt 2, 0)]; [(0, / sqrt 2); (0, - / sqrt 2)]].

Definition modes_pm : PropagatingModes :=
  {| wave_functions := Mat 1 2 [[(/ sqrt 2, 0); (/ sqrt 2, 0)]];
     velocities := [-2; 2];
     momenta := [PI / 2; - (PI / 2)] |}.

Definition modes_sm : StabilizedModes :=
  {| vecs := Mat 1 2 [[(0, / sqrt 2); (0, - / sqrt 2)]];
     vecslmbdainv := Mat 1 2 [[(/ sqrt 2, 0); (/ sqrt 2, 0)]];
     nmodes := 1;
     sqrt_hop := None |}.

Definition sigma_chain : matrix := mat1 (0, -1).

(** ** The chain with a stabilization asked for: [stabilization = (False, False)] *)

Definition forced : stabilization_t := Some (Some false, false).

Definition h_regularized : matrix := mat1 (0, 2).

Definition A_pencil : matrix :=
  Mat 2 2 [[(- (1 / 2), 0); (0, - (1 / 2))]; [(1 / 2, 0); (0, - (1 / 2))]].

Definition B_pencil : matrix :=
  Mat 2 2 [[(0, 1 / 2); (- (1 / 2), 0)]; [(0, 1 / 2); (1 / 2, 0)]].

Definition B_inverse : matrix :=
  Mat 2 2 [[(0, -1); (0, -1)]; [(-1, 0); (1, 0)]].

Definition extract_stabilized : matrix -> list C -> Res matrix :=
  extract_general chain (mat1 C1) (mat1 C1) 1 true h_regularized.

Definition linsys_stabilized : Linsys :=
  {| eigenproblem := (transfer, None); v := Some (mat1 C1); extract := extract_stabilized |}.

Definition modes_sm_forced : StabilizedModes :=
  {| vecs := Mat 1 2 [[(0, / sqrt 2); (0, - / sqrt 2)]];
     vecslmbdainv := Mat 1 2 [[(/ sqrt 2, 0); (/ sqrt 2, 0)]];
     nmodes := 1;
     sqrt_hop := Some (mat1 C1) |}.

(** ** A flat band: the on-site term [-2i] cancels the regularizing term *)

Definition h_flat : matrix := mat1 (0, -2).

Definition damped : stabilization_t := Some (None, false).

(** ** A band-edge mode of velocity zero next to a right mover *)

Definition lmbdainv_edge : list C := [RtoC (-1); Ci].

Definition psi_edge : matrix := Mat 2 2 [[C1; C1]; [C0; Copp Ci]].

(** ** Two uncoupled chains

    Hopping [1] in both, on-site energies [0] and [-6/5]:
    [modes([[0, 0], [0, -1.2]], [[1, 0], [0, 1]])].  The propagating
    eigenvalues are [i], [-i] and [3/5 + 4/5 i], [3/5 - 4/5 i]; the columns of
    [psi_two] are their eigenvectors [(x, x / lambda)]. *)

Definition lmbdainv_two : list C := [Ci; Copp Ci; (3 / 5, 4 / 5); (3 / 5, - (4 / 5))].

Definition psi_two : matrix :=
  Mat 4 4 [[C1; C1; C0; C0];
           [C0; C0; C1; C1];
           [Copp Ci; Ci; C0; C0];
           [C0; C0; (3 / 5, - (4 / 5)); (3 / 5, 4 / 5)]].

Definition full_two : matrix := Mat 2 4 [[C1; C1; C0; C0]; [C0; C0; C1; C1]].

Definition extract_two : matrix -> list C -> Res matrix := fun psi _ => Ok (rows_to 2 psi).

(** The momentum of the second chain. *)
Definition k_two : R := atan (4 / 5 / (3 / 5)).

(** * Notions and data of the further properties *)

(** The errors [setup_linsys] raises once the hopping is known not to vanish. *)
Definition setup_error (e : error) : Prop :=
  e = AssertionError \/ e = IndexError \/ e = FlatBandError \/ foreign e.

(** The errors of [modes], by the place that raises them. *)
Definition late_error (e : error) : Prop :=
  setup_error e \/ velocity_error e.

(** The solver of an empty system: [solve] of a [(0, 0)] matrix and a
    [(0, m)] right-hand side is the empty [(0, m)] array; any other system
    goes to the solver of [chain]. *)
Definition solve_empty (A B : matrix) : option matrix :=
  if (Nat.eqb (nrows A) 0 && Nat.eqb (ncols A) 0 && Nat.eqb (nrows B) 0)%bool
  then Some (zeros 0 (ncols B)) else la_solve chain A B.

Definition chain_empty : LinAlg := {|
  lu_t := lu_t chain;
  finfo_eps := finfo_eps chain;
  np_empty := np_empty chain;
  np_argsort := np_argsort chain;
  la_svd := la_svd chain;
  la_inv := la_inv chain;
  la_solve := solve_empty;
  la_qr := la_qr chain;
  la_eigh := la_eigh chain;
  kla_lu_factor := kla_lu_factor chain;
  kla_rcond_from_lu := kla_rcond_from_lu chain;
  kla_lu_solve := kla_lu_solve chain;
  kla_schur := kla_schur chain;
  kla_evecs_from_schur := kla_evecs_from_schur chain;
  kla_order_schur := kla_order_schur chain;
  kla_gen_schur := kla_gen_schur chain;
  kla_evecs_from_gen_schur := kla_evecs_from_gen_schur chain;
  kla_order_gen_schur := kla_order_gen_schur chain
|}.

(** A tolerance so large that no matrix [B] counts as safely invertible:
    [eps * tol = 2^-52 * 1e16 > 1]. *)
Definition tol_large : R := 100000000.

Definition linsys_generalized : Linsys :=
  {| eigenproblem := (A_pencil, Some B_pencil); v := Some (mat1 C1);
     extract := extract_stabilized |}.

(** * Properties *)

(** ** Scalars *)

Lemma Rltb_true (x y : R) : Rltb x y = true <-> x < y.
Proof. unfold Rltb; destruct (Rlt_dec x y); split; intros; try easy. Qed.

Lemma Rltb_false (x y : R) : Rltb x y = false <-> y <= x.
Proof.
  unfold Rltb; destruct (Rlt_dec x y); split; intros; try easy; lra.
Qed.

Lemma Rleb_true (x y : R) : Rleb x y = true <-> x <= y.
Proof. unfold Rleb; destruct (Rle_dec x y); split; intros; try easy. Qed.

Lemma Rleb_false (x y : R) : Rleb x y = false <-> y < x.
Proof.
  unfold Rleb; destruct (Rle_dec x y); split; intros; try easy; lra.
Qed.

Lemma Reqb_true (x y : R) : Reqb x y = true <-> x = y.
Proof. unfold Reqb; destruct (Req_dec_T x y); split; intros; try easy. Qed.

Lemma Reqb_false (x y : R) : Reqb x y = false <-> x <> y.
Proof. unfold Reqb; destruct (Req_dec_T x y); split; intros; try easy. Qed.

(** ** Arrays *)

Lemma nth_map_seq (A : Type) (g : nat -> A) (n i : nat) (d : A) :
  (i < n)%nat -> nth i (map g (seq 0 n)) d = g i.
Proof.
  intros Hi.
  rewrite (nth_indep _ d (g 0%nat)) by (rewrite length_map, length_seq; exact Hi).
  rewrite (map_nth g (seq 0 n) 0%nat i), seq_nth by exact Hi.
  reflexivity.
Qed.

Lemma get_tabulate (r c : nat) (g : nat -> nat -> C) (i j : nat) :
  (i < r)%nat -> (j < c)%nat -> get (tabulate r c g) i j = g i j.
Proof.
  intros Hi Hj. unfold get, tabulate; cbn [rows].
  rewrite (nth_map_seq (fun i => map (fun j => g i j) (seq 0 c)) [] Hi).
  apply nth_map_seq; exact Hj.
Qed.

Lemma get_tabulate_out (r c : nat) (g : nat -> nat -> C) (i j : nat) :
  (r <= i)%nat \/ (c <= j)%nat -> get (tabulate r c g) i j = C0.
Proof.
  intros H. unfold get, tabulate; cbn [rows].
  destruct (Nat.lt_ge_cases i r) as [Hi | Hi].
  - rewrite (nth_map_seq (fun i => map (fun j => g i j) (seq 0 c)) [] Hi).
    apply nth_overflow. rewrite length_map, length_seq. lia.
  - rewrite (nth_overflow (map _ (seq 0 r))) by (rewrite length_map, length_seq; lia).
    destruct j; reflexivity.
Qed.

Lemma rows_tabulate_length (r c : nat) (g : nat -> nat -> C) :
  length (rows (tabulate r c g)) = r /\
  Forall (fun row => length row = c) (rows (tabulate r c g)).
Proof.
  unfold tabulate; cbn [rows]. split.
  - now rewrite length_map, length_seq.
  - apply Forall_forall. intros row Hin. apply in_map_iff in Hin.
    destruct Hin as [i [<- _]]. now rewrite length_map, length_seq.
Qed.

(** ** The closed form *)

Lemma f_factor (x : R) : f x = ClosedForm.factor x.
Proof.
  unfold f, ClosedForm.factor.
  destruct (Rleb (Rabs x) 2) eqn:Hq.
  - unfold Csub, Cmul, RtoC, Ci, Re, Im; cbn [fst snd]. f_equal; ring.
  - apply Rleb_false in Hq.
    assert (Hs : 0 <= sqrt ((x / 2) ^ 2 - 1)) by apply sqrt_pos.
    unfold RtoC, copysign, Rsign. f_equal.
    rewrite (Rabs_pos_eq _ Hs).
    destruct (Rltb x 0) eqn:Hneg.
    + ring.
    + apply Rltb_false in Hneg.
      destruct (Rltb 0 x) eqn:Hpos.
      * ring.
      * apply Rltb_false in Hpos.
        assert (x = 0) by lra. subst x. rewrite Rabs_R0 in Hq. lra.
Qed.

Lemma Cmul_RtoC (x : R) (z : C) : Cmul (RtoC x) z = Cscale x z.
Proof.
  destruct z as [a b]. unfold Cmul, Cscale, RtoC, Re, Im; cbn [fst snd].
  f_equal; ring.
Qed.

Lemma square_selfenergy_entries (width : nat) (hopping fermi_energy : R) :
  hopping <> 0 ->
  exists result,
    square_selfenergy width hopping fermi_energy = Ok result /\
    shape result = (width, width) /\
    forall i j, (i < width)%nat -> (j < width)%nat ->
      get result i j = ClosedForm.entry width hopping fermi_energy i j.
Proof.
  intros Hh. unfold square_selfenergy.
  apply Reqb_false in Hh. rewrite Hh, andb_false_r.
  eexists; split; [reflexivity | split; [reflexivity | ]].
  intros i j Hi Hj.
  rewrite get_tabulate by assumption.
  unfold ClosedForm.entry. rewrite Cmul_RtoC. f_equal. f_equal.
  apply map_ext_in. intros p Hp. apply in_seq in Hp.
  assert (Hpw : (p < width)%nat) by lia.
  rewrite Cmul_RtoC.
  rewrite (nth_map_seq _ C0 Hpw), f_factor.
  unfold rget.
  rewrite !(nth_map_seq (fun p => map _ (seq 0 width)) [] Hpw).
  rewrite (nth_map_seq _ 0 Hi), (nth_map_seq _ 0 Hj).
  unfold ClosedForm.psi, ClosedForm.q.
  assert (Hw : INR width + 1 <> 0) by (pose proof (pos_INR width); lra).
  f_equal; [ f_equal; f_equal; f_equal; field; exact Hw | ].
  f_equal. f_equal. f_equal. f_equal. f_equal. f_equal. f_equal.
  field; exact Hw.
Qed.

(** C9.  Whenever [hopping] is not zero, [square_selfenergy] returns an array
    whose entry [(i, j)] is [hopping] times the sum over the transverse index
    [p] of [psi[p,i] * psi[p,j] * f_p], where the longitudinal factor [f_p]
    is [q/2 - i sqrt(1 - (q/2)^2)] for [|q| <= 2] and
    [q/2 - sign(q) sqrt((q/2)^2 - 1)] for [|q| > 2]; the function [f] of the
    source is that factor. *)
Theorem square_selfenergy_closed_form (width : nat) (hopping fermi_energy : R) :
  hopping <> 0 ->
  (forall x, f x = ClosedForm.factor x) /\
  exists result,
    square_selfenergy width hopping fermi_energy = Ok result /\
    forall i j, (i < width)%nat -> (j < width)%nat ->
      get result i j = ClosedForm.entry width hopping fermi_energy i j.
Proof.
  intros Hh. split; [exact f_factor | ].
  destruct (square_selfenergy_entries width fermi_energy Hh) as [result [Hr [_ He]]].
  exists result. split; assumption.
Qed.

Lemma square_selfenergy_closed_form_witness :
  (forall x, f x = ClosedForm.factor x) /\
  exists result,
    square_selfenergy 5 1 (3 / 10) = Ok result /\
    forall i j, (i < 5)%nat -> (j < 5)%nat ->
      get result i j = ClosedForm.entry 5 1 (3 / 10) i j.
Proof.
  apply (@square_selfenergy_closed_form 5 1 (3 / 10)). lra.
Defined.

Lemma Csum_ext_in (l : list nat) (g h : nat -> C) :
  (forall p, In p l -> g p = h p) -> Csum (map g l) = Csum (map h l).
Proof. intros H. f_equal. apply map_ext_in. exact H. Qed.

(** C10.  For a width of at least one and a nonzero hopping,
    [square_selfenergy] returns a [width] by [width] array that is symmetric:
    [result[i, j] = result[j, i]]. *)
Theorem square_selfenergy_symmetric (width : nat) (hopping fermi_energy : R) :
  (1 <= width)%nat -> hopping <> 0 ->
  exists result,
    square_selfenergy width hopping fermi_energy = Ok result /\
    shape result = (width, width) /\
    length (rows result) = width /\
    Forall (fun row => length row = width) (rows result) /\
    forall i j, get result i j = get result j i.
Proof.
  intros _ Hh. unfold square_selfenergy.
  apply Reqb_false in Hh. rewrite Hh, andb_false_r.
  eexists. split; [reflexivity | ]. split; [reflexivity | ].
  split; [apply rows_tabulate_length | ]. split; [apply rows_tabulate_length | ].
  intros i j.
  destruct (Nat.lt_ge_cases i width) as [Hi | Hi];
    destruct (Nat.lt_ge_cases j width) as [Hj | Hj].
  - rewrite !get_tabulate by assumption. f_equal.
    apply Csum_ext_in. intros p _. now rewrite Rmult_comm.
  - rewrite !get_tabulate_out by (left + right; assumption). reflexivity.
  - rewrite !get_tabulate_out by (left + right; assumption). reflexivity.
  - rewrite !get_tabulate_out by (left; assumption). reflexivity.
Qed.

Lemma square_selfenergy_symmetric_witness :
  exists result,
    square_selfenergy 5 1 (3 / 10) = Ok result /\
    shape result = (5%nat, 5%nat) /\
    length (rows result) = 5%nat /\
    Forall (fun row => length row = 5%nat) (rows result) /\
    forall i j, get result i j = get result j i.
Proof.
  apply (@square_selfenergy_symmetric 5 1 (3 / 10)); [lia | lra].
Defined.

(** ** Zero hopping *)

Lemma Cnonzero_zero : Cnonzero C0 = false.
Proof.
  unfold Cnonzero, C0, Re, Im; cbn [fst snd].
  assert (H : Reqb 0 0 = true) by now apply Reqb_true.
  now rewrite H.
Qed.

Lemma complex_any_all_zero (M : matrix) : all_zero M -> complex_any M = false.
Proof.
  unfold all_zero, complex_any. induction 1 as [ | row rest Hrow _ IH]; [reflexivity | ].
  cbn [existsb]. rewrite IH, orb_false_r.
  induction Hrow as [ | z row' Hz _ IH']; [reflexivity | ].
  cbn [existsb]. subst z. now rewrite Cnonzero_zero, IH'.
Qed.

Lemma all_zero_zeros (r c : nat) : all_zero (zeros r c).
Proof.
  unfold all_zero, zeros, tabulate; cbn [rows].
  apply Forall_forall. intros row Hin. apply in_map_iff in Hin.
  destruct Hin as [i [<- _]]. apply Forall_forall. intros z Hz.
  apply in_map_iff in Hz. now destruct Hz as [j [<- _]].
Qed.

(** C4.  On a cell Hamiltonian of shape [(n, n)] and a hopping of shape
    [(n, m)] that is identically zero, [modes] does not raise: it returns
    propagating modes whose [wave_functions] have shape [(n, 0)] and whose
    velocities and momenta are empty, and stabilized modes with [nmodes = 0]. *)
Theorem modes_zero_hopping (K : LinAlg) (h_cell h_hop : matrix) (tol : R)
        (stabilization : stabilization_t) (n m : nat) :
  shape h_cell = (n, n) -> shape h_hop = (n, m) -> all_zero h_hop ->
  exists pm sm,
    modes K h_cell h_hop tol stabilization = Ok (pm, sm) /\
    shape (wave_functions pm) = (n, 0%nat) /\
    velocities pm = [] /\ momenta pm = [] /\ nmodes sm = 0%nat.
Proof.
  unfold shape. intros Hc Hh Hz.
  injection Hc as Hr Hcc. injection Hh as Hhr Hhc.
  unfold modes. rewrite Hr, Hcc, Hhr, Nat.eqb_refl.
  rewrite (complex_any_all_zero Hz). cbn [negb orb].
  do 2 eexists. split; [reflexivity | ]. cbn. auto.
Qed.

(** C8.  [setup_linsys] on a hopping that is identically zero raises the
    degenerate-hopping error, whatever the cell Hamiltonian, the tolerance,
    the stabilization and the answers of the linear-algebra routines: no
    decomposition is attempted. *)
Theorem setup_linsys_zero_hopping (K : LinAlg) (h_cell h_hop : matrix) (tol : R)
        (stabilization : stabilization_t) :
  all_zero h_hop ->
  setup_linsys K h_cell h_hop tol stabilization = Err DegenerateHoppingError.
Proof.
  intros Hz. unfold setup_linsys. now rewrite (complex_any_all_zero Hz).
Qed.

(** ** setup_linsys *)

Section SetupLinsys.

Variable K : LinAlg.

Lemma lift_err (A : Type) (o : option A) (e : error) :
  lift o = Err e -> e = LinAlgError.
Proof. destruct o; cbn; congruence. Qed.

Lemma broadcast_to_err (h w : nat) (X : matrix) (e : error) :
  broadcast_to h w X = Err e -> e = BroadcastError.
Proof. unfold broadcast_to. destruct (_ && _)%bool; congruence. Qed.

Lemma assign_block_err (r0 c0 h w : nat) (X M : matrix) (e : error) :
  assign_block r0 c0 h w X M = Err e -> e = BroadcastError.
Proof.
  unfold assign_block. destruct (broadcast_to h w X) eqn:E; cbn; [congruence | ].
  intros H. injection H as <-. eapply broadcast_to_err; eassumption.
Qed.

Lemma raises_only_bind (P : error -> Prop) (A B : Type) (c : Res A) (k : A -> Res B) :
  raises_only P c -> (forall a, c = Ok a -> raises_only P (k a)) ->
  raises_only P (bind c k).
Proof.
  unfold raises_only. intros Hc Hk e. destruct c as [a | e']; cbn [bind].
  - now apply Hk.
  - intros H. apply Hc. congruence.
Qed.

Lemma raises_only_ok (P : error -> Prop) (A : Type) (a : A) : raises_only P (Ok a).
Proof. intros e H. discriminate. Qed.

Lemma raises_only_lift (A : Type) (o : option A) : raises_only foreign (lift o).
Proof. intros e H. left. eapply lift_err; eassumption. Qed.

Lemma raises_only_broadcast_to (h w : nat) (X : matrix) :
  raises_only foreign (broadcast_to h w X).
Proof. intros e H. right. eapply broadcast_to_err; eassumption. Qed.

Lemma raises_only_assign_block (r0 c0 h w : nat) (X M : matrix) :
  raises_only foreign (assign_block r0 c0 h w X M).
Proof. intros e H. right. eapply assign_block_err; eassumption. Qed.

Ltac raises_foreign :=
  repeat first
    [ apply raises_only_ok
    | apply raises_only_lift
    | apply raises_only_broadcast_to
    | apply raises_only_assign_block
    | apply raises_only_bind; [ | intros ? _ ]
    | match goal with
      | |- raises_only _ (if ?b then _ else _) => destruct b
      | |- raises_only _ (let '(_, _) := ?p in _) => destruct p
      end ].

Lemma pencil_foreign (u v : matrix) (k : nat) (need : bool) (sol : lu_t K) :
  raises_only foreign (pencil K u v k need sol).
Proof. unfold pencil. raises_foreign. Qed.

Lemma reduce_pencil_foreign (A B : matrix) (eps tol : R) (stab1 : bool) :
  raises_only foreign (reduce_pencil K A B eps tol stab1).
Proof. unfold reduce_pencil. raises_foreign. Qed.

Lemma reduced_bases_foreign (n : nat) (u : matrix) (s : list R) (vh : matrix) (k : nat) :
  raises_only foreign (reduced_bases n u s vh k).
Proof. unfold reduced_bases. raises_foreign. Qed.

Lemma fast_path_foreign (n : nat) (h_cell h_hop : matrix) :
  raises_only foreign (fast_path K n h_cell h_hop).
Proof. unfold fast_path. raises_foreign. Qed.

Lemma onsite_inverse_attempted (h_cell h_hop u v : matrix) (eps : R)
      (stabilization : stabilization_t) :
  regularization_attempted K h_cell h_hop eps stabilization ->
  onsite_inverse K h_cell h_hop u v eps (fst (stabilization_flags stabilization)) =
  stabilize K h_cell u v eps.
Proof.
  unfold onsite_inverse. intros [Ha | [sol0 [Hs Hr]]].
  - now rewrite Ha.
  - destruct (add_imaginary _ _); [reflexivity | ].
    rewrite Hs. cbn [lift bind]. apply Rltb_true in Hr. now rewrite Hr.
Qed.

(** C5.  On the general path of [setup_linsys], once the anti-Hermitian term
    [1j * (u u^H + v v^H)] has been added to the cell Hamiltonian, the call
    fails with the flat-band error exactly when the reciprocal condition
    number of the LU factorisation of the regularized Hamiltonian is below
    [eps], the machine epsilon times [tol]. *)
Theorem flat_band_iff (h_cell h_hop : matrix) (tol : R) (stabilization : stabilization_t)
        (u : matrix) (s : list R) (vh : matrix) (n_nonsing : nat) (u' v' : matrix)
        (sol : lu_t K) :
  complex_any h_hop = true ->
  hopping_svd K h_hop (finfo_eps K * tol) = Ok (u, s, vh, n_nonsing) ->
  (Nat.eqb n_nonsing (nrows h_cell) && is_none stabilization)%bool = false ->
  reduced_bases (nrows h_cell) u s vh n_nonsing = Ok (u', v') ->
  regularization_attempted K h_cell h_hop (finfo_eps K * tol) stabilization ->
  kla_lu_factor K (regularized h_cell u' v') = Some sol ->
  (setup_linsys K h_cell h_hop tol stabilization = Err FlatBandError <->
   kla_rcond_from_lu K sol (norm1 (regularized h_cell u' v')) < finfo_eps K * tol).
Proof.
  intros Hany Hsvd Hpath Hred Hatt Hlu.
  unfold setup_linsys. rewrite Hany. cbn [negb]. rewrite Hsvd. cbn [bind].
  rewrite Hpath. unfold general_path. rewrite Hred. cbn [bind].
  rewrite (onsite_inverse_attempted _ _ Hatt).
  unfold stabilize. rewrite Hlu. cbn [lift bind].
  destruct (Rltb _ _) eqn:Hr.
  - apply Rltb_true in Hr. split; [intros _; exact Hr | reflexivity].
  - apply Rltb_false in Hr. cbn [bind]. split; [ | intros Hlt; lra].
    intros Hflat. exfalso.
    assert (Hf : foreign FlatBandError); [ | destruct Hf; discriminate].
    revert Hflat. generalize FlatBandError.
    change (raises_only foreign
              (r <- pencil K u' v' n_nonsing true sol;;
               (let '(A, B) := r in
                matrices <- reduce_pencil K A B (finfo_eps K * tol) tol
                              (snd (stabilization_flags stabilization));;
                Ok {| eigenproblem := matrices; v := Some (rows_to (ncols h_hop) v');
                      extract := extract_general K u' v' n_nonsing true sol |}))).
    apply raises_only_bind; [apply pencil_foreign | ].
    intros [A B] _. apply raises_only_bind; [apply reduce_pencil_foreign | ].
    intros. apply raises_only_ok.
Qed.

End SetupLinsys.

(** ** The stable sort of [np.lexsort] *)

Section StableSort.

Variable key : nat -> R.

Lemma insert_by_perm (i : nat) (l : list nat) :
  Permutation (insert_by key i l) (i :: l).
Proof.
  induction l as [ | j l IH]; cbn [insert_by]; [reflexivity | ].
  destruct (Rleb (key i) (key j)); [reflexivity | ].
  rewrite IH. apply perm_swap.
Qed.

Lemma stable_sort_perm (l : list nat) : Permutation (stable_sort key l) l.
Proof.
  induction l as [ | i l IH]; cbn [stable_sort]; [reflexivity | ].
  rewrite insert_by_perm. now apply perm_skip.
Qed.

Lemma lex_key_le (before : nat -> nat -> Prop) (i j : nat) :
  lex key before i j -> key i <= key j.
Proof. intros [H | [H _]]; lra. Qed.

Lemma insert_by_sorted (before : nat -> nat -> Prop) (i : nat) (l : list nat) :
  StronglySorted (lex key before) l -> Forall (before i) l ->
  StronglySorted (lex key before) (insert_by key i l).
Proof.
  induction l as [ | j l IH]; cbn [insert_by]; intros Hs Hb.
  - constructor; constructor.
  - apply StronglySorted_inv in Hs. destruct Hs as [Hs Hj].
    destruct (Rleb (key i) (key j)) eqn:Hle.
    + apply Rleb_true in Hle. constructor; [constructor; assumption | ].
      rewrite Forall_forall in Hb, Hj |- *.
      intros x [<- | Hx].
      * destruct Hle as [Hlt | Heq]; [left; exact Hlt | right; split; [exact Heq | ]].
        apply Hb. now left.
      * pose proof (lex_key_le (Hj x Hx)) as Hjx.
        destruct (Rle_lt_or_eq_dec _ _ (Rle_trans _ _ _ Hle Hjx)) as [Hlt | Heq];
          [left; exact Hlt | right; split; [exact Heq | ]].
        apply Hb. now right.
    + apply Rleb_false in Hle. constructor.
      * apply IH; [exact Hs | now inversion Hb].
      * rewrite Forall_forall in Hj |- *. intros x Hx.
        apply (Permutation_in _ (insert_by_perm i l)) in Hx.
        destruct Hx as [<- | Hx]; [left; exact Hle | now apply Hj].
Qed.

Lemma stable_sort_sorted (before : nat -> nat -> Prop) (l : list nat) :
  StronglySorted before l -> StronglySorted (lex key before) (stable_sort key l).
Proof.
  induction l as [ | i l IH]; cbn [stable_sort]; intros Hs; [constructor | ].
  apply StronglySorted_inv in Hs. destruct Hs as [Hs Hi].
  apply insert_by_sorted; [now apply IH | ].
  rewrite Forall_forall in Hi |- *. intros x Hx. apply Hi.
  now apply (Permutation_in _ (stable_sort_perm l)).
Qed.

End StableSort.

Lemma seq_sorted (start len : nat) : StronglySorted lt (seq start len).
Proof.
  revert start. induction len as [ | len IH]; intros start; cbn [seq]; constructor.
  - apply IH.
  - apply Forall_forall. intros x Hx. apply in_seq in Hx. lia.
Qed.

Lemma lexsort3 (k1 k2 k3 : list R) (len : nat) :
  Permutation (lexsort [k1; k2; k3] len) (seq 0 len) /\
  StronglySorted (modes_before k1 k2 k3) (lexsort [k1; k2; k3] len).
Proof.
  unfold lexsort, modes_before; cbn [fold_left]. split.
  - now rewrite !stable_sort_perm.
  - do 3 apply stable_sort_sorted. apply seq_sorted.
Qed.

Lemma map_nth_seq (A : Type) (l : list A) (d : A) :
  map (fun i => nth i l d) (seq 0 (length l)) = l.
Proof.
  apply nth_ext with (d := d) (d' := d).
  - now rewrite length_map, length_seq.
  - intros n Hn. rewrite length_map, length_seq in Hn.
    now rewrite (nth_map_seq (fun i => nth i l d) d Hn).
Qed.

Lemma StronglySorted_map (A B : Type) (g : A -> B) (P : A -> A -> Prop)
      (Q : B -> B -> Prop) (l : list A) :
  (forall x y, In x l -> In y l -> P x y -> Q (g x) (g y)) ->
  StronglySorted P l -> StronglySorted Q (map g l).
Proof.
  intros HPQ Hs. induction Hs as [ | x l Hs IH Hx]; cbn [map]; constructor.
  - apply IH. intros a b Ha Hb. apply HPQ; now right.
  - rewrite Forall_forall in Hx |- *. intros y Hy. apply in_map_iff in Hy.
    destruct Hy as [a [<- Ha]]. apply HPQ; [now left | now right | now apply Hx].
Qed.

(** ** The checks and the sort of make_proper_modes *)

Lemma existsb_Rltb (thr : R) (vels : list R) :
  existsb (fun x => Rltb (Rabs x) thr) vels = true <->
  exists x, In x vels /\ Rabs x < thr.
Proof.
  rewrite existsb_exists. split; intros [x [Hin Hx]]; exists x; split; try assumption;
    now apply Rltb_true.
Qed.

Lemma existsb_Rltb_false (thr : R) (vels : list R) :
  existsb (fun x => Rltb (Rabs x) thr) vels = false <->
  Forall (fun x => thr <= Rabs x) vels.
Proof.
  rewrite Forall_forall. split.
  - intros H x Hin. destruct (Rle_lt_dec thr (Rabs x)) as [Hle | Hlt]; [exact Hle | ].
    assert (Ht : existsb (fun x => Rltb (Rabs x) thr) vels = true)
      by (apply existsb_Rltb; now exists x).
    congruence.
  - intros H. destruct (existsb _ vels) eqn:E; [ | reflexivity].
    apply existsb_Rltb in E. destruct E as [x [Hin Hx]]. specialize (H x Hin). lra.
Qed.

Lemma finish_modes_zero_velocity (lmbdainv : list C) (thr : R) (psi full_psi : matrix)
      (vels : list R) :
  finish_modes lmbdainv thr (psi, full_psi, vels) = Err ZeroVelocityError <->
  exists x, In x vels /\ Rabs x < thr.
Proof.
  unfold finish_modes. rewrite <- existsb_Rltb.
  destruct (existsb _ vels); [tauto | ].
  destruct (negb (Nat.eqb _ (length vels))); [split; discriminate | ].
  destruct (negb (Nat.eqb _ (length vels))); split; discriminate.
Qed.

Lemma finish_modes_mismatch (lmbdainv : list C) (thr : R) (psi full_psi : matrix)
      (vels : list R) :
  finish_modes lmbdainv thr (psi, full_psi, vels) = Err ModeCountMismatchError <->
  Forall (fun x => thr <= Rabs x) vels /\ (2 * count_neg vels)%nat <> length vels.
Proof.
  unfold finish_modes, count_neg. rewrite <- existsb_Rltb_false.
  destruct (existsb _ vels); [split; [discriminate | intros [H _]; discriminate] | ].
  destruct (Nat.eqb _ (length vels)) eqn:E; cbn [negb].
  - apply Nat.eqb_eq in E.
    destruct (negb (Nat.eqb _ (length vels)));
      (split; [discriminate | intros [_ H]; contradiction]).
  - apply Nat.eqb_neq in E. tauto.
Qed.

Lemma finish_modes_ok (lmbdainv : list C) (thr : R) (psi full_psi : matrix)
      (vels : list R) (psi' : matrix) (pm : PropagatingModes) :
  finish_modes lmbdainv thr (psi, full_psi, vels) = Ok (psi', pm) ->
  Forall (fun x => thr <= Rabs x) vels /\
  (2 * count_neg vels)%nat = length vels /\
  length lmbdainv = length vels /\
  velocities pm = map (fun i => nth i vels 0) (modes_order lmbdainv vels) /\
  momenta pm = map (fun i => nth i (map (fun z => - angle z) lmbdainv) 0)
                   (modes_order lmbdainv vels).
Proof.
  unfold finish_modes, count_neg, modes_order. rewrite <- existsb_Rltb_false.
  destruct (existsb _ vels); [discriminate | ].
  destruct (Nat.eqb _ (length vels)) eqn:E; cbn [negb]; [ | discriminate].
  rewrite length_map.
  destruct (Nat.eqb (length lmbdainv) (length vels)) eqn:E'; cbn [negb]; [ | discriminate].
  apply Nat.eqb_eq in E, E'. intros H. injection H as _ <-. cbn. auto.
Qed.

Lemma modes_order_perm (lmbdainv : list C) (vels : list R) :
  Permutation (modes_order lmbdainv vels) (seq 0 (length vels)).
Proof. unfold modes_order, sort_keys. apply lexsort3. Qed.

Lemma sorted_velocities_perm (lmbdainv : list C) (vels : list R) :
  Permutation (map (fun i => nth i vels 0) (modes_order lmbdainv vels)) vels.
Proof.
  rewrite (modes_order_perm lmbdainv vels). now rewrite map_nth_seq.
Qed.

Lemma count_neg_perm (l l' : list R) : Permutation l l' -> count_neg l = count_neg l'.
Proof.
  unfold count_neg. induction 1; cbn [filter]; repeat destruct (Rltb _ 0); cbn [length];
    congruence.
Qed.

Lemma count_pos_perm (l l' : list R) : Permutation l l' -> count_pos l = count_pos l'.
Proof.
  unfold count_pos. induction 1; cbn [filter]; repeat destruct (Rltb 0 _); cbn [length];
    congruence.
Qed.

(** Without a zero among them, the velocities are the negative and the
    positive ones. *)
Lemma count_neg_pos (l : list R) :
  Forall (fun x => x <> 0) l -> (count_neg l + count_pos l)%nat = length l.
Proof.
  unfold count_neg, count_pos. induction 1 as [ | x l Hx _ IH]; [reflexivity | ].
  cbn [filter length].
  destruct (Rltb x 0) eqn:E1; destruct (Rltb 0 x) eqn:E2; cbn [length]; try lia.
  - apply Rltb_true in E1, E2. lra.
  - apply Rltb_false in E1, E2. lra.
Qed.

Lemma Rsign_neg (x : R) : x < 0 -> Rsign x = -1.
Proof. intros H. unfold Rsign. apply Rltb_true in H. now rewrite H. Qed.

Lemma Rsign_pos (x : R) : 0 < x -> Rsign x = 1.
Proof.
  intros H. unfold Rsign.
  assert (H0 : Rltb x 0 = false) by (apply Rltb_false; lra).
  apply Rltb_true in H. now rewrite H0, H.
Qed.

(** A list without zeros that is sorted by sign: the negative entries come
    first and the positive ones follow. *)
Lemma sorted_by_sign_split (l : list R) :
  StronglySorted (fun a b => Rsign a <= Rsign b) l ->
  Forall (fun x => x <> 0) l ->
  Forall (fun x => x < 0) (firstn (count_neg l) l) /\
  Forall (fun x => 0 < x) (skipn (count_neg l) l).
Proof.
  induction 1 as [ | x l Hs IH Hx]; intros Hnz; [cbn; auto | ].
  inversion Hnz as [ | ? ? Hx0 Hnz']; subst.
  specialize (IH Hnz'). unfold count_neg in *. cbn [filter].
  destruct (Rltb x 0) eqn:E.
  - apply Rltb_true in E. cbn [length firstn skipn]. split; [constructor | ]; tauto.
  - apply Rltb_false in E. assert (Hpos : 0 < x) by lra.
    assert (Hall : Forall (fun y => 0 < y) l).
    { rewrite Forall_forall in Hx, Hnz' |- *. intros y Hy.
      specialize (Hx y Hy). rewrite (Rsign_pos Hpos) in Hx.
      destruct (Rlt_le_dec 0 y) as [H | H]; [exact H | ].
      assert (Hy0 : y < 0) by (specialize (Hnz' y Hy); lra).
      rewrite (Rsign_neg Hy0) in Hx. lra. }
    assert (Hnone : filter (fun y => Rltb y 0) l = []).
    { clear -Hall. induction Hall as [ | y l Hy _ IH]; [reflexivity | ].
      cbn [filter]. assert (E : Rltb y 0 = false) by (apply Rltb_false; lra).
      now rewrite E. }
    rewrite Hnone. cbn [length firstn skipn]. split; constructor; assumption.
Qed.

Lemma Rsign_zero : Rsign 0 = 0.
Proof.
  unfold Rsign. assert (H : Rltb 0 0 = false) by (apply Rltb_false; lra). now rewrite H.
Qed.

Lemma sorted_velocities_by_sign (lmbdainv : list C) (vels : list R) :
  StronglySorted (fun a b => Rsign a <= Rsign b)
                 (map (fun i => nth i vels 0) (modes_order lmbdainv vels)).
Proof.
  unfold modes_order, sort_keys.
  eapply StronglySorted_map; [ | apply lexsort3].
  intros i j _ _ Hij. apply lex_key_le in Hij. unfold key_of in Hij.
  assert (Hn : forall t, nth t (map Rsign vels) 0 = Rsign (nth t vels 0)).
  { intros t. rewrite <- Rsign_zero at 1. apply map_nth. }
  now rewrite !Hn in Hij.
Qed.

(** ** make_proper_modes and modes *)

Section Modes.

Variable K : LinAlg.

Lemma raises_only_weaken (P Q : error -> Prop) (A : Type) (r : Res A) :
  (forall e, P e -> Q e) -> raises_only P r -> raises_only Q r.
Proof. unfold raises_only. intros HPQ H e He. apply HPQ, H, He. Qed.

Lemma foreign_early (e : error) : foreign e -> early_error e.
Proof. unfold foreign, early_error, velocity_error. intros [-> | ->] [H | H]; discriminate. Qed.

Lemma raises_only_err (P : error -> Prop) (A : Type) (e : error) :
  P e -> raises_only P (@Err A e).
Proof. intros H e' He. injection He as <-. exact H. Qed.

Lemma cluster_step_foreign (n : nat) (indx : list nat) (st : matrix * matrix * list R) :
  raises_only foreign (cluster_step K n indx st).
Proof.
  destruct st as [[psi full_psi] vels]. unfold cluster_step.
  apply raises_only_bind; [apply raises_only_lift | intros [q r] _].
  apply raises_only_bind; [apply raises_only_lift | intros x _].
  apply raises_only_bind; [apply raises_only_lift | intros [vals rot] _].
  apply raises_only_ok.
Qed.

Lemma cluster_loop_foreign (n len b0 : nat) (sort_order : list nat)
      (ivs : list (nat * nat)) (st : matrix * matrix * list R) :
  raises_only foreign (cluster_loop K n len b0 sort_order ivs st).
Proof.
  revert st. induction ivs as [ | [lo hi] ivs IH]; intros st; cbn [cluster_loop].
  - apply raises_only_ok.
  - destruct (Nat.ltb (b0 + len) hi); [apply raises_only_ok | ].
    apply raises_only_bind; [apply cluster_step_foreign | intros st' _; apply IH].
Qed.

Lemma resolve_modes_foreign (lmbdainv : list C) (psi : matrix)
      (extract : matrix -> list C -> Res matrix) (tol : R) :
  (forall p l, raises_only foreign (extract p l)) ->
  raises_only foreign (resolve_modes K lmbdainv psi extract tol).
Proof.
  intros Hex. unfold resolve_modes.
  apply raises_only_bind; [apply Hex | intros full_psi _].
  destruct (cluster_boundaries K lmbdainv tol) as [sort_order boundaries].
  apply cluster_loop_foreign.
Qed.

Lemma make_proper_modes_resolved (lmbdainv : list C) (psi : matrix)
      (extract : matrix -> list C -> Res matrix) (tol : R)
      (st : matrix * matrix * list R) :
  resolve_modes K lmbdainv psi extract tol = Ok st ->
  make_proper_modes K lmbdainv psi extract tol =
  finish_modes lmbdainv (finfo_eps K * tol) st.
Proof. unfold make_proper_modes. now intros ->. Qed.

Lemma unified_eigenproblem_foreign (a : matrix) (b : option matrix) (tol : R) :
  raises_only foreign (unified_eigenproblem K a b tol).
Proof.
  unfold unified_eigenproblem. destruct b as [b | ].
  - apply raises_only_bind; [apply raises_only_lift | intros [[[[s t] z] alpha] beta] _].
    apply raises_only_ok.
  - apply raises_only_bind; [apply raises_only_lift | intros [[t z] ev] _].
    apply raises_only_ok.
Qed.

Lemma unified_eigenproblem_closures (a : matrix) (b : option matrix) (tol : R) (eig : Eigen) :
  unified_eigenproblem K a b tol = Ok eig ->
  forall x, raises_only foreign (vec_gen eig x) /\ raises_only foreign (ord_schur eig x).
Proof.
  unfold unified_eigenproblem. destruct b as [b | ].
  - destruct (kla_gen_schur K a b) as [[[[[s t] z] alpha] beta] | ]; cbn [lift bind];
      [ | discriminate].
    intros H x. injection H as <-. cbn [vec_gen ord_schur]. split.
    + apply raises_only_lift.
    + apply raises_only_bind; [apply raises_only_lift | intros; apply raises_only_ok].
  - destruct (kla_schur K a) as [[[t z] ev] | ]; cbn [lift bind]; [ | discriminate].
    intros H x. injection H as <-. cbn [vec_gen ord_schur]. split.
    + apply raises_only_lift.
    + apply raises_only_bind; [apply raises_only_lift | intros; apply raises_only_ok].
Qed.

Lemma early_not_foreign :
  early_error DegenerateHoppingError /\ early_error AssertionError /\
  early_error IndexError /\ early_error FlatBandError /\ early_error ShapeError.
Proof. unfold early_error, velocity_error. repeat split; intros [H | H]; discriminate. Qed.

Lemma stabilize_early (h_cell u v : matrix) (eps : R) :
  raises_only early_error (stabilize K h_cell u v eps).
Proof.
  unfold stabilize.
  apply raises_only_bind;
    [eapply raises_only_weaken; [apply foreign_early | apply raises_only_lift] | intros sol _].
  destruct (Rltb _ eps); [apply raises_only_err, early_not_foreign | apply raises_only_ok].
Qed.

Lemma setup_linsys_early (h_cell h_hop : matrix) (tol : R) (stabilization : stabilization_t) :
  raises_only early_error (setup_linsys K h_cell h_hop tol stabilization).
Proof.
  pose proof early_not_foreign as [Hd [Ha [Hi [Hf _]]]].
  assert (Hw : forall A (r : Res A), raises_only foreign r -> raises_only early_error r)
    by (intros A r; apply raises_only_weaken, foreign_early).
  unfold setup_linsys.
  destruct (negb (complex_any h_hop)); [now apply raises_only_err | ].
  apply raises_only_bind.
  - unfold hopping_svd. apply raises_only_bind; [apply Hw, raises_only_lift | ].
    intros [[u s] vh] _. destruct (negb _); [now apply raises_only_err | ].
    apply raises_only_bind; [ | intros; apply raises_only_ok].
    unfold index. destruct (nth_error s 0); [apply raises_only_ok | now apply raises_only_err].
  - intros [[[u s] vh] k] _. destruct (_ && _)%bool.
    + apply Hw, fast_path_foreign.
    + unfold general_path.
      apply raises_only_bind; [apply Hw, reduced_bases_foreign | intros [u' v'] _].
      apply raises_only_bind.
      * unfold onsite_inverse. destruct (add_imaginary _ _); [apply stabilize_early | ].
        apply raises_only_bind; [apply Hw, raises_only_lift | intros sol _].
        destruct (Rltb _ _); [apply stabilize_early | apply raises_only_ok].
      * intros [[h sol] need] _.
        apply raises_only_bind; [apply Hw, pencil_foreign | intros [A B] _].
        apply raises_only_bind; [apply Hw, reduce_pencil_foreign | intros; apply raises_only_ok].
Qed.

Ltac bind_ok H :=
  match type of H with
  | bind ?c _ = Ok _ =>
      let E := fresh "E" in
      destruct c eqn:E; cbn [bind] in H; [ | discriminate H]
  end.

Lemma setup_linsys_ok_inv (h_cell h_hop : matrix) (tol : R)
      (stabilization : stabilization_t) (ls : Linsys) :
  setup_linsys K h_cell h_hop tol stabilization = Ok ls ->
  complex_any h_hop = true /\
  exists u s vh k,
    hopping_svd K h_hop (finfo_eps K * tol) = Ok (u, s, vh, k) /\
    ((k = nrows h_cell /\ stabilization = None /\
      fast_path K (nrows h_cell) h_cell h_hop = Ok ls) \/
     ((Nat.eqb k (nrows h_cell) && is_none stabilization)%bool = false /\
      general_path K (nrows h_cell) (ncols h_hop) h_cell h_hop u s vh k
                   (finfo_eps K * tol) tol stabilization = Ok ls)).
Proof.
  unfold setup_linsys. destruct (complex_any h_hop); cbn [negb]; [ | discriminate].
  intros H. split; [reflexivity | ]. bind_ok H. destruct p as [[[u s] vh] k].
  exists u, s, vh, k. split; [reflexivity | ].
  destruct (Nat.eqb k (nrows h_cell)) eqn:Ek; destruct stabilization as [st | ];
    cbn [is_none andb] in *; try (right; split; [reflexivity | exact H]).
  left. apply Nat.eqb_eq in Ek. auto.
Qed.

Lemma fast_path_ok (n : nat) (h_cell h_hop : matrix) (ls : Linsys) :
  fast_path K n h_cell h_hop = Ok ls ->
  v ls = None /\ extract ls = (fun psi _ => Ok (rows_to n psi)) /\
  snd (eigenproblem ls) = None.
Proof.
  unfold fast_path. intros H. do 4 bind_ok H. injection H as <-. cbn. auto.
Qed.

Lemma general_path_ok (n m : nat) (h_cell h_hop u : matrix) (s : list R) (vh : matrix)
      (k : nat) (eps tol : R) (stabilization : stabilization_t) (ls : Linsys) :
  general_path K n m h_cell h_hop u s vh k eps tol stabilization = Ok ls ->
  exists u' v' h sol need,
    reduced_bases n u s vh k = Ok (u', v') /\
    onsite_inverse K h_cell h_hop u' v' eps (fst (stabilization_flags stabilization)) =
      Ok (h, sol, need) /\
    v ls = Some (rows_to m v') /\
    extract ls = extract_general K u' v' k need sol.
Proof.
  unfold general_path. intros H. bind_ok H. destruct p as [u' v'].
  bind_ok H. destruct p as [[h sol] need]. bind_ok H. destruct p as [A B].
  bind_ok H. injection H as <-. exists u', v', h, sol, need. cbn. auto.
Qed.

Lemma setup_linsys_extract_foreign (h_cell h_hop : matrix) (tol : R)
      (stabilization : stabilization_t) (ls : Linsys) :
  setup_linsys K h_cell h_hop tol stabilization = Ok ls ->
  forall p l, raises_only foreign (extract ls p l).
Proof.
  intros H p l. apply setup_linsys_ok_inv in H.
  destruct H as [_ [u [s [vh [k [_ [[_ [_ H]] | [_ H]]]]]]]].
  - apply fast_path_ok in H. destruct H as [_ [-> _]]. apply raises_only_ok.
  - apply general_path_ok in H.
    destruct H as [u' [v' [h [sol [need [_ [_ [_ ->]]]]]]]].
    unfold extract_general. apply raises_only_lift.
Qed.

(** [sqrt_hop] as [setup_linsys] leaves it. *)
Lemma setup_linsys_v (h_cell h_hop : matrix) (tol : R)
      (stabilization : stabilization_t) (ls : Linsys) :
  setup_linsys K h_cell h_hop tol stabilization = Ok ls ->
  (v ls = None <->
   stabilization = None /\
   exists u s vh,
     hopping_svd K h_hop (finfo_eps K * tol) = Ok (u, s, vh, nrows h_cell)).
Proof.
  intros H. apply setup_linsys_ok_inv in H.
  destruct H as [_ [u [s [vh [k [Hsvd [[-> [-> H]] | [Hk H]]]]]]]].
  - apply fast_path_ok in H. destruct H as [-> _].
    split; [intros _; split; [reflexivity | now exists u, s, vh] | reflexivity].
  - apply general_path_ok in H.
    destruct H as [u' [v' [h [sol [need [_ [_ [-> _]]]]]]]].
    split; [discriminate | ]. intros [-> [u0 [s0 [vh0 Hsvd0]]]].
    rewrite Hsvd0 in Hsvd. injection Hsvd as _ _ _ <-.
    rewrite Nat.eqb_refl in Hk. discriminate.
Qed.

Lemma bind_err_inv (A B : Type) (c : Res A) (k : A -> Res B) (e : error) :
  bind c k = Err e -> c = Err e \/ exists a, c = Ok a /\ k a = Err e.
Proof.
  destruct c as [a | e']; cbn [bind]; intros H; [right; now exists a | left; congruence].
Qed.

Lemma modes_velocity_error (h_cell h_hop : matrix) (tol : R)
      (stabilization : stabilization_t) (e : error) :
  velocity_error e ->
  (modes K h_cell h_hop tol stabilization = Err e <->
   exists lmbdainv st,
     reaches_checks K h_cell h_hop tol stabilization lmbdainv st /\
     finish_modes lmbdainv (finfo_eps K * tol) st = Err e).
Proof.
  intros Hve. unfold modes. split.
  - destruct (Nat.eqb (nrows h_cell) (ncols h_cell)) eqn:E1; cbn [negb orb];
      [ | intros H; injection H as <-; destruct Hve; discriminate].
    destruct (Nat.eqb (nrows h_cell) (nrows h_hop)) eqn:E2; cbn [negb];
      [ | intros H; injection H as <-; destruct Hve; discriminate].
    destruct (complex_any h_hop) eqn:E3; cbn [negb]; [ | discriminate].
    apply Nat.eqb_eq in E1, E2.
    intros H. apply bind_err_inv in H.
    destruct H as [H | [ls [Hls H]]];
      [exfalso; exact (@setup_linsys_early _ _ _ _ _ H Hve) | ].
    cbn beta iota zeta in H. apply bind_err_inv in H.
    destruct H as [H | [eig [Heig H]]];
      [exfalso; exact (foreign_early (@unified_eigenproblem_foreign _ _ _ _ H) Hve) | ].
    pose proof (@unified_eigenproblem_closures _ _ _ _ Heig) as Hcl.
    apply bind_err_inv in H.
    destruct H as [H | [z [Hz H]]];
      [exfalso; exact (foreign_early (proj2 (Hcl _) _ H) Hve) | ].
    apply bind_err_inv in H.
    destruct H as [H | [prop_vecs [Hp H]]];
      [exfalso; exact (foreign_early (proj1 (Hcl _) _ H) Hve) | ].
    apply bind_err_inv in H.
    destruct H as [H | [[pv pm] [_ H]]]; [ | discriminate].
    unfold make_proper_modes in H. apply bind_err_inv in H.
    destruct H as [H | [st [Hst H]]].
    + exfalso. refine (foreign_early _ Hve).
      exact (@resolve_modes_foreign _ _ _ _ (@setup_linsys_extract_foreign _ _ _ _ _ Hls) _ H).
    + exists (select_mask (propselect eig) (ev eig)), st. split; [ | exact H].
      repeat split; try assumption. now exists ls, eig, z, prop_vecs.
  - intros (lmbdainv & st & (E1 & E2 & E3 & ls & eig & z & pv & Hls & Heig & Hz & Hp & Hl & Hst) & H).
    subst lmbdainv.
    rewrite <- E1, <- E2, Nat.eqb_refl, E3. cbn [negb orb].
    rewrite Hls. cbn [bind]. cbn beta iota zeta. rewrite Heig. cbn [bind].
    rewrite Hz. cbn [bind]. rewrite Hp. cbn [bind].
    rewrite (@make_proper_modes_resolved _ _ _ _ _ Hst), H. reflexivity.
Qed.


Lemma modes_ok_inv (h_cell h_hop : matrix) (tol : R) (stabilization : stabilization_t)
      (pm : PropagatingModes) (sm : StabilizedModes) :
  modes K h_cell h_hop tol stabilization = Ok (pm, sm) ->
  (complex_any h_hop = false /\ velocities pm = [] /\ momenta pm = [] /\
   sqrt_hop sm = Some (zeros (ncols h_hop) 0)) \/
  (exists lmbdainv st psi' ls,
     reaches_checks K h_cell h_hop tol stabilization lmbdainv st /\
     finish_modes lmbdainv (finfo_eps K * tol) st = Ok (psi', pm) /\
     setup_linsys K h_cell h_hop tol stabilization = Ok ls /\
     sqrt_hop sm = v ls).
Proof.
  unfold modes.
  destruct (Nat.eqb (nrows h_cell) (ncols h_cell)) eqn:E1; cbn [negb orb]; [ | discriminate].
  destruct (Nat.eqb (nrows h_cell) (nrows h_hop)) eqn:E2; cbn [negb]; [ | discriminate].
  apply Nat.eqb_eq in E1, E2.
  destruct (complex_any h_hop) eqn:E3; cbn [negb].
  - intros H. right.
    destruct (setup_linsys K h_cell h_hop tol stabilization) as [ls | ] eqn:Hls;
      cbn [bind] in H; [ | discriminate].
    cbn beta iota zeta in H.
    destruct (unified_eigenproblem K _ _ tol) as [eig | ] eqn:Heig;
      cbn [bind] in H; [ | discriminate].
    destruct (ord_schur eig _) as [z | ] eqn:Hz; cbn [bind] in H; [ | discriminate].
    destruct (vec_gen eig _) as [prop_vecs | ] eqn:Hp; cbn [bind] in H; [ | discriminate].
    destruct (make_proper_modes K _ prop_vecs _ tol) as [[psi' pm'] | ] eqn:Hm;
      cbn [bind] in H; [ | discriminate].
    injection H as <- <-.
    unfold make_proper_modes in Hm.
    destruct (resolve_modes K _ prop_vecs _ tol) as [st | ] eqn:Hst;
      cbn [bind] in Hm; [ | discriminate].
    exists (select_mask (propselect eig) (ev eig)), st, psi', ls.
    repeat split; try assumption; try reflexivity.
    now exists ls, eig, z, prop_vecs.
  - intros H. injection H as <- <-. left. cbn. auto.
Qed.

Lemma finish_modes_bounded (lmbdainv : list C) (thr : R) (st : matrix * matrix * list R)
      (psi' : matrix) (pm : PropagatingModes) :
  finish_modes lmbdainv thr st = Ok (psi', pm) ->
  Forall (fun x => thr <= Rabs x) (velocities pm).
Proof.
  destruct st as [[psi full_psi] vels]. intros H. apply finish_modes_ok in H.
  destruct H as [Hb [_ [_ [-> _]]]].
  eapply Permutation_Forall; [ | exact Hb].
  symmetry. apply sorted_velocities_perm.
Qed.

Lemma finish_modes_halves (lmbdainv : list C) (thr : R) (st : matrix * matrix * list R)
      (psi' : matrix) (pm : PropagatingModes) :
  0 < thr ->
  finish_modes lmbdainv thr st = Ok (psi', pm) -> halves (velocities pm).
Proof.
  destruct st as [[psi full_psi] vels]. intros Hthr H. apply finish_modes_ok in H.
  destruct H as [Hb [Hc [_ [-> _]]]].
  pose proof (sorted_velocities_perm lmbdainv vels) as Hperm.
  set (vs := map _ (modes_order lmbdainv vels)) in *.
  assert (Hnz : Forall (fun x => x <> 0) vs).
  { eapply Permutation_Forall; [symmetry; exact Hperm | ].
    eapply Forall_impl; [ | exact Hb]. cbn beta. intros x Hx ->.
    rewrite Rabs_R0 in Hx. lra. }
  assert (Hlen : length vs = (2 * count_neg vs)%nat).
  { rewrite (Permutation_length Hperm), (count_neg_perm Hperm). lia. }
  assert (Hhalf : (length vs / 2)%nat = count_neg vs).
  { rewrite Hlen, Nat.mul_comm. apply Nat.div_mul. discriminate. }
  unfold halves. rewrite Hhalf.
  pose proof (count_neg_pos Hnz) as Hsum.
  repeat split; try lia;
    apply sorted_by_sign_split; try assumption; apply sorted_velocities_by_sign.
Qed.

(** C6.  Once the velocities are computed, [make_proper_modes] fails with the
    zero-velocity error exactly when one of them has a magnitude below [tol]
    times the machine epsilon, and every velocity it returns has a magnitude of
    at least that threshold; the same holds of [modes], which fails with that
    error exactly when it reaches the check with such a velocity. *)
Theorem zero_velocity_iff (lmbdainv : list C) (psi : matrix)
        (extract : matrix -> list C -> Res matrix) (tol : R)
        (psi1 full_psi1 : matrix) (vels : list R) :
  resolve_modes K lmbdainv psi extract tol = Ok (psi1, full_psi1, vels) ->
  (make_proper_modes K lmbdainv psi extract tol = Err ZeroVelocityError <->
   exists x, In x vels /\ Rabs x < finfo_eps K * tol) /\
  (forall psi' pm,
     make_proper_modes K lmbdainv psi extract tol = Ok (psi', pm) ->
     Forall (fun x => finfo_eps K * tol <= Rabs x) (velocities pm)) /\
  (forall h_cell h_hop stabilization,
     modes K h_cell h_hop tol stabilization = Err ZeroVelocityError <->
     exists l q1 q2 vs,
       reaches_checks K h_cell h_hop tol stabilization l (q1, q2, vs) /\
       exists x, In x vs /\ Rabs x < finfo_eps K * tol) /\
  (forall h_cell h_hop stabilization pm sm,
     modes K h_cell h_hop tol stabilization = Ok (pm, sm) ->
     Forall (fun x => finfo_eps K * tol <= Rabs x) (velocities pm)).
Proof.
  intros Hres. rewrite (@make_proper_modes_resolved _ _ _ _ _ Hres).
  split; [apply finish_modes_zero_velocity | ].
  split; [intros psi' pm; apply finish_modes_bounded | ].
  split.
  - intros h_cell h_hop stabilization.
    rewrite modes_velocity_error by (now left). split.
    + intros (l & [[q1 q2] vs] & Hr & Hf). exists l, q1, q2, vs. split; [exact Hr | ].
      now apply finish_modes_zero_velocity in Hf.
    + intros (l & q1 & q2 & vs & Hr & Hx). exists l, (q1, q2, vs). split; [exact Hr | ].
      now apply finish_modes_zero_velocity.
  - intros h_cell h_hop stabilization pm sm H. apply modes_ok_inv in H.
    destruct H as [[_ [-> _]] | (l & st & psi' & ls & _ & Hf & _)]; [constructor | ].
    eapply finish_modes_bounded; eassumption.
Qed.

(** C7, as the code has it.  With a positive threshold and once the
    velocities are computed, [make_proper_modes] fails with the
    mode-count-mismatch error exactly when no velocity is within the threshold
    of zero and the numbers of negative and of positive velocities differ;
    when it succeeds the number of modes is even, the first half of the
    velocities is strictly negative and the second half strictly positive.
    The same holds of [modes]. *)
Theorem mode_count_mismatch_iff (lmbdainv : list C) (psi : matrix)
        (extract : matrix -> list C -> Res matrix) (tol : R)
        (psi1 full_psi1 : matrix) (vels : list R) :
  0 < finfo_eps K * tol ->
  resolve_modes K lmbdainv psi extract tol = Ok (psi1, full_psi1, vels) ->
  (make_proper_modes K lmbdainv psi extract tol = Err ModeCountMismatchError <->
   Forall (fun x => finfo_eps K * tol <= Rabs x) vels /\
   count_neg vels <> count_pos vels) /\
  (forall psi' pm,
     make_proper_modes K lmbdainv psi extract tol = Ok (psi', pm) ->
     halves (velocities pm)) /\
  (forall h_cell h_hop stabilization,
     modes K h_cell h_hop tol stabilization = Err ModeCountMismatchError <->
     exists l q1 q2 vs,
       reaches_checks K h_cell h_hop tol stabilization l (q1, q2, vs) /\
       Forall (fun x => finfo_eps K * tol <= Rabs x) vs /\
       count_neg vs <> count_pos vs) /\
  (forall h_cell h_hop stabilization pm sm,
     modes K h_cell h_hop tol stabilization = Ok (pm, sm) ->
     halves (velocities pm)).
Proof.
  intros Hthr Hres. rewrite (@make_proper_modes_resolved _ _ _ _ _ Hres).
  assert (Hcount : forall vs, Forall (fun x => finfo_eps K * tol <= Rabs x) vs ->
            ((2 * count_neg vs)%nat <> length vs <-> count_neg vs <> count_pos vs)).
  { intros vs Hb.
    assert (Hnz : Forall (fun x => x <> 0) vs).
    { eapply Forall_impl; [ | exact Hb]. cbn beta. intros x Hx ->.
      rewrite Rabs_R0 in Hx. lra. }
    pose proof (count_neg_pos Hnz). lia. }
  split; [ | split; [ | split]].
  - rewrite finish_modes_mismatch. split; intros [Hb Hc]; (split; [exact Hb | ]);
      now apply (Hcount vels Hb).
  - intros psi' pm. now apply finish_modes_halves.
  - intros h_cell h_hop stabilization.
    rewrite modes_velocity_error by (now right). split.
    + intros (l & [[q1 q2] vs] & Hr & Hf). exists l, q1, q2, vs. split; [exact Hr | ].
      apply finish_modes_mismatch in Hf. destruct Hf as [Hb Hc].
      split; [exact Hb | now apply (Hcount vs Hb)].
    + intros (l & q1 & q2 & vs & Hr & Hb & Hc). exists l, (q1, q2, vs).
      split; [exact Hr | ]. apply finish_modes_mismatch.
      split; [exact Hb | now apply (Hcount vs Hb)].
  - intros h_cell h_hop stabilization pm sm H. apply modes_ok_inv in H.
    destruct H as [[_ [-> _]] | (l & st & psi' & ls & _ & Hf & _)].
    + unfold halves, count_neg, count_pos. cbn. auto.
    + eapply finish_modes_halves; eassumption.
Qed.

(** C3, as the code has it.  On a successful call of [modes], [sqrt_hop] is
    absent exactly when the hopping is not identically zero, all [n] of its
    singular values are above the threshold, and no stabilization was asked
    for; it is present as soon as a stabilization is given. *)
Theorem sqrt_hop_absent_iff (h_cell h_hop : matrix) (tol : R)
        (stabilization : stabilization_t) (pm : PropagatingModes) (sm : StabilizedModes) :
  modes K h_cell h_hop tol stabilization = Ok (pm, sm) ->
  (sqrt_hop sm = None <->
   complex_any h_hop = true /\ stabilization = None /\
   exists u s vh,
     hopping_svd K h_hop (finfo_eps K * tol) = Ok (u, s, vh, nrows h_cell)).
Proof.
  intros H. apply modes_ok_inv in H.
  destruct H as [[Hz [_ [_ ->]]] | (l & st & psi' & ls & Hr & _ & Hls & ->)].
  - split; [discriminate | ]. intros [Hany _]. congruence.
  - rewrite (@setup_linsys_v _ _ _ _ _ Hls).
    destruct Hr as (_ & _ & Hany & _). tauto.
Qed.

Lemma selfenergy_of_formula (sm : StabilizedModes) (Sigma : matrix) :
  selfenergy_of K sm = Ok Sigma <->
  selfenergy_formula K (sqrt_hop sm) (cols_from (nmodes sm) (vecs sm))
                     (cols_from (nmodes sm) (vecslmbdainv sm)) Sigma.
Proof.
  unfold selfenergy_of, selfenergy_formula. destruct (sqrt_hop sm) as [v | ].
  - destruct (la_solve K _ _) as [x | ]; cbn [lift bind].
    + split; [intros H; injection H as <-; now exists x | ].
      intros [x' [Hx ->]]. now injection Hx as <-.
    + split; [discriminate | intros [x' [Hx _]]; discriminate].
  - destruct (la_solve K _ _) as [x | ]; cbn [lift bind].
    + split; [intros H; injection H as <-; now exists x | ].
      intros [x' [Hx ->]]. now injection Hx as <-.
    + split; [discriminate | intros [x' [Hx _]]; discriminate].
Qed.

(** C1, as the code has it.  On a successful call, [selfenergy] is computed
    from the columns of [vecs] and [vecslmbdainv] from index [nmodes] on:
    the [nmodes] outgoing propagating columns and the evanescent ones; only
    the first [nmodes] columns, the incoming modes, stay out of the formula.
    The formula is [sqrt_hop . vecs . solve(vecslmbdainv, sqrt_hop^H)] when
    [sqrt_hop] is present and [solve(vecslmbdainv^T, vecs^T)^T] otherwise. *)
Theorem selfenergy_blocks (h_cell h_hop : matrix) (tol : R) (Sigma : matrix) :
  selfenergy K h_cell h_hop tol = Ok Sigma ->
  exists pm sm,
    modes K h_cell h_hop tol None = Ok (pm, sm) /\
    selfenergy_formula K (sqrt_hop sm) (cols_from (nmodes sm) (vecs sm))
                       (cols_from (nmodes sm) (vecslmbdainv sm)) Sigma.
Proof.
  unfold selfenergy. intros H. bind_ok H. destruct p as [pm sm].
  exists pm, sm. split; [reflexivity | ]. now apply selfenergy_of_formula.
Qed.

End Modes.

(** * The runs *)

Unset Implicit Arguments.

Lemma Rltb_true_intro (x y : R) : x < y -> Rltb x y = true.
Proof. apply Rltb_true. Qed.
Lemma Rltb_false_intro (x y : R) : y <= x -> Rltb x y = false.
Proof. apply Rltb_false. Qed.
Lemma Rleb_true_intro (x y : R) : x <= y -> Rleb x y = true.
Proof. apply Rleb_true. Qed.
Lemma Rleb_false_intro (x y : R) : y < x -> Rleb x y = false.
Proof. apply Rleb_false. Qed.
Lemma Reqb_true_intro (x y : R) : x = y -> Reqb x y = true.
Proof. apply Reqb_true. Qed.
Lemma Reqb_false_intro (x y : R) : x <> y -> Reqb x y = false.
Proof. apply Reqb_false. Qed.

Lemma sqrt_eq (x y : R) : 0 <= y -> y * y = x -> sqrt x = y.
Proof. intros Hy <-. now apply sqrt_square. Qed.

Lemma lt_sqrt (e x : R) : 0 <= e -> e * e < x -> e < sqrt x.
Proof.
  intros He Hx. rewrite <- (sqrt_square e He). apply sqrt_lt_1; nra.
Qed.

(** Decide the comparisons of the goal with [tac]. *)
Ltac r_tests tac :=
  repeat match goal with
  | |- context [Rltb ?a ?b] =>
      first [ rewrite (@Rltb_true_intro a b) by tac
            | rewrite (@Rltb_false_intro a b) by tac ]
  | |- context [Rleb ?a ?b] =>
      first [ rewrite (@Rleb_true_intro a b) by tac
            | rewrite (@Rleb_false_intro a b) by tac ]
  | |- context [Reqb ?a ?b] =>
      first [ rewrite (@Reqb_true_intro a b) by tac
            | rewrite (@Reqb_false_intro a b) by tac ]
  end.

(** Replace the square roots of the goal that are equal to [v]. *)
Ltac sqrt_is v :=
  repeat match goal with
  | |- context [sqrt ?x] => rewrite (@sqrt_eq x v) by lra
  end.

Ltac compute_R :=
  cbv -[Rplus Rminus Rmult Ropp Rinv Rdiv IZR Rabs sqrt PI atan Rltb Rleb Reqb Rmax Rlt Rle].

Lemma Ok_eq (A : Type) (a b : A) : a = b -> Ok a = Ok b.
Proof. now intros ->. Qed.
Lemma Some_eq (A : Type) (a b : A) : a = b -> Some a = Some b.
Proof. now intros ->. Qed.
Lemma pair_eq (A B : Type) (a a' : A) (b b' : B) : a = a' -> b = b' -> (a, b) = (a', b').
Proof. now intros -> ->. Qed.
Lemma cons_eq (A : Type) (a a' : A) (l l' : list A) : a = a' -> l = l' -> a :: l = a' :: l'.
Proof. now intros -> ->. Qed.
Lemma Mat_eq (r c : nat) (l l' : list (list C)) : l = l' -> Mat r c l = Mat r c l'.
Proof. now intros ->. Qed.

Lemma Linsys_eq (e e' : matrix * option matrix) (w w' : option matrix)
      (x x' : matrix -> list C -> Res matrix) :
  e = e' -> w = w' -> x = x' ->
  {| eigenproblem := e; v := w; extract := x |} = {| eigenproblem := e'; v := w'; extract := x' |}.
Proof. now intros -> -> ->. Qed.

Lemma PropagatingModes_eq (w w' : matrix) (a a' b b' : list R) :
  w = w' -> a = a' -> b = b' ->
  {| wave_functions := w; velocities := a; momenta := b |} =
  {| wave_functions := w'; velocities := a'; momenta := b' |}.
Proof. now intros -> -> ->. Qed.

Lemma StabilizedModes_eq (a a' b b' : matrix) (n : nat) (s s' : option matrix) :
  a = a' -> b = b' -> s = s' ->
  {| vecs := a; vecslmbdainv := b; nmodes := n; sqrt_hop := s |} =
  {| vecs := a'; vecslmbdainv := b'; nmodes := n; sqrt_hop := s' |}.
Proof. now intros -> -> ->. Qed.

(** Equality of results, arrays and lists down to their real entries. *)
Ltac entries :=
  repeat first
    [ reflexivity
    | apply Ok_eq | apply Some_eq | apply pair_eq | apply cons_eq | apply Mat_eq
    | apply Linsys_eq | apply PropagatingModes_eq | apply StabilizedModes_eq ].

Ltac r_entries := entries; try lra; try (field; lra).

Ltac r_solve := first [ lra | apply lt_sqrt; lra ].
Ltac eval_R := compute_R; repeat (progress (r_tests r_solve); compute_R).

Lemma Reqb_refl (x : R) : Reqb x x = true.
Proof. now apply Reqb_true. Qed.

Lemma row_eqb_refl (r : list C) : row_eqb r r = true.
Proof.
  induction r as [ | z r IH]; [reflexivity | ].
  cbn [row_eqb]. unfold Ceqb. now rewrite !Reqb_refl, IH.
Qed.

Lemma meqb_refl (M : matrix) : meqb M M = true.
Proof.
  unfold meqb. rewrite !Nat.eqb_refl. cbn [andb].
  induction (rows M) as [ | r l IH]; [reflexivity | ].
  cbn [rows_eqb]. now rewrite row_eqb_refl, IH.
Qed.

Lemma chain_svd : la_svd chain t_chain = Some (mat1 C1, [1], mat1 C1).
Proof. eval_R. sqrt_is 1. r_entries. Qed.

Lemma chain_hopping_svd :
  hopping_svd chain t_chain (finfo_eps chain * tol_default) = Ok (mat1 C1, [1], mat1 C1, 1%nat).
Proof.
  unfold hopping_svd. rewrite chain_svd. eval_R. reflexivity.
Qed.

Lemma chain_inv : la_inv chain t_chain = Some (mat1 C1).
Proof. eval_R. r_entries. Qed.

Lemma chain_fast_path : fast_path chain 1 h_chain t_chain = Ok linsys_fast.
Proof.
  unfold fast_path. rewrite chain_inv. unfold linsys_fast, extract_fast. cbn [lift bind].
  compute_R. r_entries.
Qed.

Lemma chain_complex_any : complex_any t_chain = true.
Proof. eval_R. reflexivity. Qed.

Lemma chain_setup_linsys :
  setup_linsys chain h_chain t_chain tol_default None = Ok linsys_fast.
Proof.
  unfold setup_linsys. rewrite chain_complex_any. cbn [negb].
  rewrite chain_hopping_svd. cbn [bind]. cbn. apply chain_fast_path.
Qed.

Lemma chain_unified_eigenproblem :
  unified_eigenproblem chain transfer None tol_default = Ok eigen_chain.
Proof.
  unfold unified_eigenproblem.
  assert (Hs : kla_schur chain transfer = Some (transfer, identity 2, [Ci; Copp Ci])).
  { cbn [kla_schur chain]. now rewrite meqb_refl. }
  rewrite Hs. cbn [lift bind].
  assert (H1 : Cabs Ci = 1) by (compute_R; sqrt_is 1; reflexivity).
  assert (H2 : Cabs (Copp Ci) = 1) by (compute_R; sqrt_is 1; reflexivity).
  cbn [map]. rewrite H1, H2. unfold tol_default. cbn [finfo_eps chain].
  replace (1 - 1) with 0 by lra. rewrite Rabs_R0.
  r_tests lra. reflexivity.
Qed.

Lemma chain_ord_schur : ord_schur eigen_chain (evanselect eigen_chain) = Ok (identity 2).
Proof. reflexivity. Qed.

Lemma chain_vec_gen : vec_gen eigen_chain (propselect eigen_chain) = Ok transfer_evecs.
Proof.
  cbn [vec_gen propselect eigen_chain kla_evecs_from_schur chain].
  now rewrite meqb_refl.
Qed.

Lemma chain_angles : map angle [Ci; Copp Ci] = [PI / 2; - (PI / 2)].
Proof. eval_R. reflexivity. Qed.

Lemma chain_momenta :
  map (fun z => - angle z) [Ci; Copp Ci] = [- (PI / 2); PI / 2].
Proof. eval_R. r_entries. Qed.

Lemma chain_argsort : np_argsort chain [PI / 2; - (PI / 2)] = [1%nat; 0%nat].
Proof. pose proof PI_RGT_0. eval_R. reflexivity. Qed.

Lemma chain_boundaries :
  cluster_boundaries chain [Ci; Copp Ci] tol_default = ([1; 0; 1; 0]%nat, [1; 2; 3]%nat).
Proof.
  unfold cluster_boundaries. rewrite chain_angles, chain_argsort.
  eval_R. reflexivity.
Qed.

Lemma chain_step0 :
  cluster_step chain 1 [0%nat] (transfer_evecs, row11, [0; 0]) =
  Ok (transfer_evecs, row11, [2; 0]).
Proof.
  unfold cluster_step. eval_R. sqrt_is 1. eval_R. r_entries.
Qed.

Lemma chain_step1 :
  cluster_step chain 1 [1%nat] (transfer_evecs, row11, [2; 0]) =
  Ok (transfer_evecs, row11, [2; -2]).
Proof.
  unfold cluster_step. eval_R. sqrt_is 1. eval_R. r_entries.
Qed.

Lemma chain_resolve_modes (extract : matrix -> list C -> Res matrix) :
  extract transfer_evecs [Ci; Copp Ci] = Ok row11 ->
  resolve_modes chain [Ci; Copp Ci] transfer_evecs extract tol_default =
  Ok (transfer_evecs, row11, [2; -2]).
Proof.
  intros Hex. unfold resolve_modes. rewrite Hex. cbn [bind]. rewrite chain_boundaries.
  cbn [cluster_loop intervals hd length Nat.add Nat.ltb Nat.leb slice skipn firstn Nat.sub
       ncols nrows transfer_evecs Nat.div Nat.divmod fst np_empty chain repeat].
  rewrite chain_step0. cbn [bind]. rewrite chain_step1. reflexivity.
Qed.

Lemma Rabs_pos_val (x : R) : 0 <= x -> Rabs x = x.
Proof. apply Rabs_pos_eq. Qed.
Lemma Rabs_neg_val (x : R) : x < 0 -> Rabs x = - x.
Proof. apply Rabs_left. Qed.

Lemma chain_finish_modes :
  finish_modes [Ci; Copp Ci] (finfo_eps chain * tol_default)
               (transfer_evecs, row11, [2; -2]) = Ok (modes_psi, modes_pm).
Proof.
  unfold finish_modes. pose proof PI_RGT_0.
  rewrite chain_momenta.
  cbn [existsb]. rewrite (Rabs_pos_val 2), (Rabs_neg_val (-2)) by lra.
  eval_R. rewrite (Rabs_pos_val 2), (Rabs_neg_val (-2)) by lra.
  replace (- -2) with 2 by lra. r_entries.
Qed.

Lemma chain_make_proper_modes (extract : matrix -> list C -> Res matrix) :
  extract transfer_evecs [Ci; Copp Ci] = Ok row11 ->
  make_proper_modes chain [Ci; Copp Ci] transfer_evecs extract tol_default =
  Ok (modes_psi, modes_pm).
Proof.
  intros Hex.
  unfold make_proper_modes. rewrite (chain_resolve_modes _ Hex). apply chain_finish_modes.
Qed.

Lemma chain_modes :
  modes chain h_chain t_chain tol_default None = Ok (modes_pm, modes_sm).
Proof.
  unfold modes. rewrite chain_complex_any. cbn [nrows ncols h_chain t_chain mat1 Nat.eqb negb orb].
  rewrite chain_setup_linsys. cbn [bind]. cbn [eigenproblem v extract linsys_fast fst snd].
  rewrite chain_unified_eigenproblem. cbn [bind].
  rewrite chain_ord_schur. cbn [bind]. rewrite chain_vec_gen. cbn [bind].
  cbn [select_mask propselect ev eigen_chain].
  rewrite chain_make_proper_modes by reflexivity. cbn [bind].
  compute_R. r_entries.
Qed.

Lemma sqrt2_pos : 0 < / sqrt 2.
Proof. apply Rinv_0_lt_compat, sqrt_lt_R0. lra. Qed.

Lemma chain_selfenergy : selfenergy chain h_chain t_chain tol_default = Ok sigma_chain.
Proof.
  unfold selfenergy. rewrite chain_modes. cbn [bind snd].
  unfold selfenergy_of. pose proof sqrt2_pos.
  assert (0 < sqrt 2) by (apply sqrt_lt_R0; lra).
  eval_R. entries; field; lra.
Qed.

Ltac r_vals tac :=
  repeat match goal with
  | |- context [Rmax ?a ?b] =>
      first [ rewrite (@Rmax_left a b) by tac | rewrite (@Rmax_right a b) by tac ]
  | |- context [Rabs ?a] =>
      first [ rewrite (@Rabs_pos_val a) by tac | rewrite (@Rabs_neg_val a) by tac ]
  end.

Lemma chain_reduced_bases :
  reduced_bases 1 (mat1 C1) [1] (mat1 C1) 1 = Ok (mat1 C1, mat1 C1).
Proof.
  unfold reduced_bases. eval_R. sqrt_is 1. r_entries.
Qed.

Lemma chain_regularized : regularized h_chain (mat1 C1) (mat1 C1) = h_regularized.
Proof. compute_R. r_entries. Qed.

Lemma chain_stabilize :
  stabilize chain h_chain (mat1 C1) (mat1 C1) (finfo_eps chain * tol_default) =
  Ok (h_regularized, h_regularized, true).
Proof.
  unfold stabilize. rewrite chain_regularized.
  eval_R. sqrt_is 2. sqrt_is (1 / 2). r_vals lra. eval_R. reflexivity.
Qed.

Lemma chain_onsite_inverse :
  onsite_inverse chain h_chain t_chain (mat1 C1) (mat1 C1)
                 (finfo_eps chain * tol_default) (Some false) =
  Ok (h_regularized, h_regularized, true).
Proof.
  unfold onsite_inverse. cbn [add_imaginary].
  assert (Hlu : kla_lu_factor chain h_chain = Some h_chain) by reflexivity.
  rewrite Hlu. cbn [lift bind].
  assert (Hr : kla_rcond_from_lu chain h_chain (norm1 h_chain) = 0).
  { eval_R. reflexivity. }
  rewrite Hr. unfold tol_default. cbn [finfo_eps chain]. r_tests lra.
  apply chain_stabilize.
Qed.

Lemma chain_pencil :
  pencil chain (mat1 C1) (mat1 C1) 1 true h_regularized = Ok (A_pencil, B_pencil).
Proof.
  unfold pencil. eval_R. r_entries.
Qed.

Lemma chain_B_inverse : inverse B_pencil = B_inverse.
Proof. compute_R. r_entries. Qed.

Lemma chain_B_singular : singular B_pencil = false.
Proof. eval_R. reflexivity. Qed.

Lemma chain_B_norm : norm1 B_pencil = 1.
Proof. compute_R. sqrt_is (1 / 2). r_vals lra. lra. Qed.

Lemma chain_B_inverse_norm : norm1 B_inverse = 2.
Proof. compute_R. sqrt_is 1. r_vals lra. lra. Qed.

Lemma chain_B_solve : dot B_inverse A_pencil = transfer.
Proof. compute_R. r_entries. Qed.

Lemma chain_reduce_pencil :
  reduce_pencil chain A_pencil B_pencil (finfo_eps chain * tol_default) tol_default false =
  Ok (transfer, None).
Proof.
  unfold reduce_pencil.
  assert (Hlu : kla_lu_factor chain B_pencil = Some B_pencil) by reflexivity.
  rewrite Hlu. cbn [lift bind negb].
  cbn [kla_rcond_from_lu kla_lu_solve chain].
  rewrite chain_B_singular, chain_B_inverse, chain_B_norm, chain_B_inverse_norm, chain_B_solve.
  unfold tol_default. cbn [finfo_eps chain]. r_tests lra. reflexivity.
Qed.

Lemma chain_general_path :
  general_path chain 1 1 h_chain t_chain (mat1 C1) [1] (mat1 C1) 1
               (finfo_eps chain * tol_default) tol_default forced = Ok linsys_stabilized.
Proof.
  unfold general_path. rewrite chain_reduced_bases. cbn [bind].
  cbn [stabilization_flags forced fst snd].
  rewrite chain_onsite_inverse. cbn [bind]. rewrite chain_pencil. cbn [bind].
  rewrite chain_reduce_pencil. cbn [bind]. reflexivity.
Qed.

Lemma chain_setup_linsys_forced :
  setup_linsys chain h_chain t_chain tol_default forced = Ok linsys_stabilized.
Proof.
  unfold setup_linsys. rewrite chain_complex_any. cbn [negb].
  rewrite chain_hopping_svd. cbn [bind]. cbn [h_chain mat1 nrows Nat.eqb is_none forced andb].
  apply chain_general_path.
Qed.

Lemma chain_extract_stabilized :
  extract_stabilized transfer_evecs [Ci; Copp Ci] = Ok row11.
Proof.
  unfold extract_stabilized, extract_general. eval_R. r_entries.
Qed.

Lemma chain_modes_forced :
  modes chain h_chain t_chain tol_default forced = Ok (modes_pm, modes_sm_forced).
Proof.
  unfold modes. rewrite chain_complex_any. cbn [nrows ncols h_chain t_chain mat1 Nat.eqb negb orb].
  rewrite chain_setup_linsys_forced. cbn [bind].
  cbn [eigenproblem v extract linsys_stabilized fst snd].
  rewrite chain_unified_eigenproblem. cbn [bind].
  rewrite chain_ord_schur. cbn [bind]. rewrite chain_vec_gen. cbn [bind].
  cbn [select_mask propselect ev eigen_chain].
  rewrite chain_make_proper_modes by apply chain_extract_stabilized. cbn [bind].
  compute_R. r_entries.
Qed.

Lemma edge_angles : map angle lmbdainv_edge = [PI; PI / 2].
Proof.
  eval_R. replace (0 / -1) with 0 by lra. rewrite atan_0. r_entries.
Qed.

Lemma edge_argsort : np_argsort chain [PI; PI / 2] = [1%nat; 0%nat].
Proof. pose proof PI_RGT_0. eval_R. reflexivity. Qed.

Lemma edge_boundaries :
  cluster_boundaries chain lmbdainv_edge tol_default = ([1; 0; 1; 0]%nat, [1; 2; 3]%nat).
Proof.
  unfold cluster_boundaries. rewrite edge_angles, edge_argsort.
  eval_R. reflexivity.
Qed.

Lemma edge_step0 :
  cluster_step chain 1 [0%nat] (psi_edge, row11, [0; 0]) = Ok (psi_edge, row11, [0; 0]).
Proof.
  unfold cluster_step. eval_R. sqrt_is 1. eval_R. r_entries.
Qed.

Lemma edge_step1 :
  cluster_step chain 1 [1%nat] (psi_edge, row11, [0; 0]) = Ok (psi_edge, row11, [0; 2]).
Proof.
  unfold cluster_step. eval_R. sqrt_is 1. eval_R. r_entries.
Qed.

Lemma edge_resolve_modes :
  resolve_modes chain lmbdainv_edge psi_edge extract_fast tol_default =
  Ok (psi_edge, row11, [0; 2]).
Proof.
  unfold resolve_modes.
  assert (Hex : extract_fast psi_edge lmbdainv_edge = Ok row11) by reflexivity.
  rewrite Hex. cbn [bind]. rewrite edge_boundaries.
  cbn [cluster_loop intervals hd length Nat.add Nat.ltb Nat.leb slice skipn firstn Nat.sub
       ncols nrows psi_edge Nat.div Nat.divmod fst np_empty chain repeat lmbdainv_edge].
  rewrite edge_step0. cbn [bind]. rewrite edge_step1. reflexivity.
Qed.

Lemma edge_make_proper_modes :
  make_proper_modes chain lmbdainv_edge psi_edge extract_fast tol_default =
  Err ZeroVelocityError.
Proof.
  unfold make_proper_modes. rewrite edge_resolve_modes. cbn [bind].
  apply finish_modes_zero_velocity. exists 0. split; [now left | ].
  rewrite Rabs_R0. unfold tol_default. cbn [finfo_eps chain]. lra.
Qed.

Lemma edge_counts : count_neg [0; 2] = 0%nat /\ count_pos [0; 2] = 1%nat.
Proof. unfold count_neg, count_pos. eval_R. auto. Qed.

Lemma k_two_bounds : 0 < k_two < PI / 2.
Proof.
  unfold k_two. split; [ | apply atan_bound].
  rewrite <- atan_0. apply atan_increasing. lra.
Qed.

Lemma two_angles :
  map angle lmbdainv_two = [PI / 2; - (PI / 2); k_two; - k_two].
Proof.
  eval_R. replace (- (4 / 5) / (3 / 5)) with (- (4 / 5 / (3 / 5))) by lra.
  rewrite atan_opp. reflexivity.
Qed.

Lemma two_argsort :
  np_argsort chain [PI / 2; - (PI / 2); k_two; - k_two] = [1; 3; 2; 0]%nat.
Proof.
  pose proof k_two_bounds. pose proof PI_RGT_0.
  cbv -[Rplus Rminus Rmult Ropp Rinv Rdiv IZR Rabs sqrt PI atan Rltb Rleb Reqb Rmax Rlt Rle k_two].
  repeat (progress (r_tests r_solve);
  cbv -[Rplus Rminus Rmult Ropp Rinv Rdiv IZR Rabs sqrt PI atan Rltb Rleb Reqb Rmax Rlt Rle k_two]).
  reflexivity.
Qed.

Lemma two_boundaries :
  cluster_boundaries chain lmbdainv_two tol_default =
  ([1; 3; 2; 0; 1; 3; 2; 0]%nat, [1; 2; 3; 4; 5; 6; 7]%nat).
Proof.
  unfold cluster_boundaries. rewrite two_angles, two_argsort.
  eval_R. reflexivity.
Qed.

Ltac eval_step := unfold cluster_step; eval_R; sqrt_is 1; eval_R; r_entries.

Lemma two_step3 :
  cluster_step chain 2 [3%nat] (psi_two, full_two, [0; 0; 0; 0]) =
  Ok (psi_two, full_two, [0; 0; 0; - (8 / 5)]).
Proof. eval_step. Qed.

Lemma two_step2 :
  cluster_step chain 2 [2%nat] (psi_two, full_two, [0; 0; 0; - (8 / 5)]) =
  Ok (psi_two, full_two, [0; 0; 8 / 5; - (8 / 5)]).
Proof. eval_step. Qed.

Lemma two_step0 :
  cluster_step chain 2 [0%nat] (psi_two, full_two, [0; 0; 8 / 5; - (8 / 5)]) =
  Ok (psi_two, full_two, [2; 0; 8 / 5; - (8 / 5)]).
Proof. eval_step. Qed.

Lemma two_step1 :
  cluster_step chain 2 [1%nat] (psi_two, full_two, [2; 0; 8 / 5; - (8 / 5)]) =
  Ok (psi_two, full_two, [2; -2; 8 / 5; - (8 / 5)]).
Proof. eval_step. Qed.

Lemma two_resolve_modes :
  resolve_modes chain lmbdainv_two psi_two extract_two tol_default =
  Ok (psi_two, full_two, [2; -2; 8 / 5; - (8 / 5)]).
Proof.
  unfold resolve_modes.
  assert (Hex : extract_two psi_two lmbdainv_two = Ok full_two) by reflexivity.
  rewrite Hex. cbn [bind]. rewrite two_boundaries.
  cbn [cluster_loop intervals hd length Nat.add Nat.ltb Nat.leb slice skipn firstn Nat.sub
       ncols nrows psi_two Nat.div Nat.divmod fst np_empty chain repeat lmbdainv_two].
  rewrite two_step3. cbn [bind]. rewrite two_step2. cbn [bind].
  rewrite two_step0. cbn [bind]. rewrite two_step1. reflexivity.
Qed.

Lemma two_momenta :
  map (fun z => - angle z) lmbdainv_two = [- (PI / 2); PI / 2; - k_two; k_two].
Proof.
  change (map (fun z => - angle z) lmbdainv_two)
    with (map Ropp (map angle lmbdainv_two)).
  rewrite two_angles. cbn [map]. entries; lra.
Qed.

Lemma two_order :
  modes_order lmbdainv_two [2; -2; 8 / 5; - (8 / 5)] = [3; 1; 2; 0]%nat.
Proof.
  unfold modes_order. rewrite two_momenta.
  pose proof k_two_bounds. pose proof PI_RGT_0.
  cbv -[Rplus Rminus Rmult Ropp Rinv Rdiv IZR Rabs sqrt PI atan Rltb Rleb Reqb Rmax Rlt Rle k_two].
  repeat (progress (r_tests r_solve);
  cbv -[Rplus Rminus Rmult Ropp Rinv Rdiv IZR Rabs sqrt PI atan Rltb Rleb Reqb Rmax Rlt Rle k_two]).
  reflexivity.
Qed.

(** C2, on the two uncoupled chains.  [make_proper_modes] returns the two
    modes of negative velocity with the momenta [k_two < pi/2] in this order:
    they ascend, where the documented order is from larger to lower momenta;
    the two modes of positive velocity come with descending momenta. *)
Theorem modes_order_two_chains :
  exists psi pm,
    make_proper_modes chain lmbdainv_two psi_two extract_two tol_default = Ok (psi, pm) /\
    velocities pm = [- (8 / 5); -2; 8 / 5; 2] /\
    momenta pm = [k_two; PI / 2; - k_two; - (PI / 2)] /\
    k_two < PI / 2.
Proof.
  unfold make_proper_modes. rewrite two_resolve_modes. cbn [bind].
  unfold finish_modes.
  change (lexsort (sort_keys [2; -2; 8 / 5; - (8 / 5)] (map (fun z => - angle z) lmbdainv_two))
                  (length [2; -2; 8 / 5; - (8 / 5)]))
    with (modes_order lmbdainv_two [2; -2; 8 / 5; - (8 / 5)]).
  rewrite two_order, two_momenta.
  cbn [existsb filter length map nth Nat.eqb Nat.mul Nat.add negb].
  r_vals lra. unfold tol_default. cbn [finfo_eps chain]. r_tests lra.
  cbn [orb filter length Nat.mul Nat.add Nat.eqb negb].
  do 2 eexists. split; [reflexivity | ]. cbn [velocities momenta].
  split; [reflexivity | ]. split; [reflexivity | apply k_two_bounds].
Qed.

Lemma StronglySorted_nth (A : Type) (P : A -> A -> Prop) (l : list A) (d : A) :
  StronglySorted P l ->
  forall a b, (a < b)%nat -> (b < length l)%nat -> P (nth a l d) (nth b l d).
Proof.
  induction 1 as [ | x l Hs IH Hx]; intros a b Hab Hb; [cbn in Hb; lia | ].
  destruct b as [ | b]; [lia | ]. cbn [length] in Hb.
  destruct a as [ | a]; cbn [nth].
  - rewrite Forall_forall in Hx. apply Hx, nth_In. lia.
  - apply IH; lia.
Qed.

Lemma nth_map_in (A B : Type) (g : A -> B) (l : list A) (i : nat) (d : B) (d' : A) :
  (i < length l)%nat -> nth i (map g l) d = g (nth i l d').
Proof.
  revert i. induction l as [ | x l IH]; intros i Hi; [cbn in Hi; lia | ].
  destruct i as [ | i]; cbn [map nth]; [reflexivity | ]. apply IH. cbn in Hi. lia.
Qed.

Lemma key2_nth (vels ks : list R) (i : nat) :
  length ks = length vels -> (i < length vels)%nat ->
  nth i (map (fun vk => - Rsign (fst vk) * snd vk) (combine vels ks)) 0 =
  - Rsign (nth i vels 0) * nth i ks 0.
Proof.
  intros Hlen Hi.
  rewrite nth_map_in with (d' := (0, 0)) by (rewrite length_combine; lia).
  rewrite combine_nth by lia. reflexivity.
Qed.

(** What the sort of [make_proper_modes] gives: among the modes of negative
    velocity the momenta ascend, among those of positive velocity they
    descend. *)
Lemma finish_modes_momenta_order (lmbdainv : list C) (thr : R)
      (st : matrix * matrix * list R) (psi' : matrix) (pm : PropagatingModes) :
  finish_modes lmbdainv thr st = Ok (psi', pm) ->
  forall a b, (a < b)%nat -> (b < length (velocities pm))%nat ->
    (nth a (velocities pm) 0 < 0 -> nth b (velocities pm) 0 < 0 ->
     nth a (momenta pm) 0 <= nth b (momenta pm) 0) /\
    (0 < nth a (velocities pm) 0 -> 0 < nth b (velocities pm) 0 ->
     nth b (momenta pm) 0 <= nth a (momenta pm) 0).
Proof.
  destruct st as [[psi full_psi] vels]. intros H. apply finish_modes_ok in H.
  destruct H as (_ & _ & Hlen & -> & ->). intros a b Hab Hb.
  rewrite length_map in Hb.
  set (ks := map (fun z => - angle z) lmbdainv) in *.
  assert (Hks : length ks = length vels) by (unfold ks; now rewrite length_map).
  pose proof (modes_order_perm lmbdainv vels) as Hperm.
  assert (Hin : forall c, (c < length (modes_order lmbdainv vels))%nat ->
                   (nth c (modes_order lmbdainv vels) 0 < length vels)%nat).
  { intros c Hc.
    assert (In (nth c (modes_order lmbdainv vels) 0%nat) (seq 0 (length vels)))
      by (eapply Permutation_in; [exact Hperm | now apply nth_In]).
    apply in_seq in H. lia. }
  assert (Hnth : forall (l : list R) c, (c < length (modes_order lmbdainv vels))%nat ->
            nth c (map (fun i => nth i l 0) (modes_order lmbdainv vels)) 0 =
            nth (nth c (modes_order lmbdainv vels) 0%nat) l 0).
  { intros l c Hc. now rewrite nth_map_in with (d' := 0%nat). }
  assert (Ha : (a < length (modes_order lmbdainv vels))%nat) by lia.
  rewrite !Hnth by assumption.
  pose proof (Hin a Ha) as Hia. pose proof (Hin b Hb) as Hib.
  set (i := nth a (modes_order lmbdainv vels) 0%nat) in *.
  set (j := nth b (modes_order lmbdainv vels) 0%nat) in *.
  assert (Hij : modes_before vels
                  (map (fun vk => - Rsign (fst vk) * snd vk) (combine vels ks))
                  (map Rsign vels) i j).
  { unfold i, j. apply StronglySorted_nth; try assumption.
    unfold modes_order, sort_keys. apply lexsort3. }
  unfold modes_before, lex, key_of in Hij.
  rewrite !key2_nth in Hij by assumption.
  assert (Hs : forall t, nth t (map Rsign vels) 0 = Rsign (nth t vels 0)).
  { intros t. rewrite <- Rsign_zero at 1. apply map_nth. }
  rewrite !Hs in Hij.
  split; intros Hva Hvb.
  - rewrite (Rsign_neg Hva), (Rsign_neg Hvb) in Hij. lra.
  - rewrite (Rsign_pos Hva), (Rsign_pos Hvb) in Hij. lra.
Qed.

Lemma flat_attempted :
  add_imaginary (fst (stabilization_flags damped))
                (negb (any_imag h_flat) && negb (any_imag t_chain)) = true.
Proof. eval_R. reflexivity. Qed.

Lemma flat_rcond :
  kla_rcond_from_lu chain (regularized h_flat (mat1 C1) (mat1 C1))
                    (norm1 (regularized h_flat (mat1 C1) (mat1 C1))) = 0.
Proof.
  cbn [kla_rcond_from_lu chain].
  assert (Hs : singular (regularized h_flat (mat1 C1) (mat1 C1)) = true).
  { eval_R. reflexivity. }
  now rewrite Hs.
Qed.

Lemma flat_band_iff_witness :
  setup_linsys chain h_flat t_chain tol_default damped = Err FlatBandError.
Proof.
  apply (@flat_band_iff chain h_flat t_chain tol_default damped
           (mat1 C1) [1] (mat1 C1) 1%nat (mat1 C1) (mat1 C1)
           (regularized h_flat (mat1 C1) (mat1 C1))).
  - exact chain_complex_any.
  - exact chain_hopping_svd.
  - reflexivity.
  - exact chain_reduced_bases.
  - left. exact flat_attempted.
  - reflexivity.
  - rewrite flat_rcond. unfold tol_default. cbn [finfo_eps chain]. lra.
Defined.

Lemma selfenergy_blocks_witness :
  exists pm sm,
    modes chain h_chain t_chain tol_default None = Ok (pm, sm) /\
    selfenergy_formula chain (sqrt_hop sm) (cols_from (nmodes sm) (vecs sm))
                       (cols_from (nmodes sm) (vecslmbdainv sm)) sigma_chain.
Proof.
  exact (@selfenergy_blocks chain h_chain t_chain tol_default sigma_chain chain_selfenergy).
Defined.

(** C1, as stated, at the chain: the self-energy would come from the columns
    after the [2 * nmodes] propagating ones. *)
Lemma selfenergy_evanescent_only_counterexample :
  selfenergy chain h_chain t_chain tol_default = Ok sigma_chain /\
  modes chain h_chain t_chain tol_default None = Ok (modes_pm, modes_sm) /\
  ncols (cols_from (2 * nmodes modes_sm) (vecs modes_sm)) = 0%nat /\
  ~ selfenergy_formula chain (sqrt_hop modes_sm)
      (cols_from (2 * nmodes modes_sm) (vecs modes_sm))
      (cols_from (2 * nmodes modes_sm) (vecslmbdainv modes_sm)) sigma_chain.
Proof.
  split; [exact chain_selfenergy | ]. split; [exact chain_modes | ].
  split; [reflexivity | ].
  cbn [selfenergy_formula sqrt_hop modes_sm]. intros [x [Hx _]].
  cbn in Hx. discriminate Hx.
Qed.

Lemma sqrt_hop_absent_iff_witness :
  modes chain h_chain t_chain tol_default forced = Ok (modes_pm, modes_sm_forced) /\
  (sqrt_hop modes_sm_forced = None <->
   complex_any t_chain = true /\ forced = None /\
   exists u s vh,
     hopping_svd chain t_chain (finfo_eps chain * tol_default) = Ok (u, s, vh, nrows h_chain)).
Proof.
  split; [exact chain_modes_forced | ].
  exact (@sqrt_hop_absent_iff chain h_chain t_chain tol_default forced modes_pm
           modes_sm_forced chain_modes_forced).
Defined.

(** C3, as stated, at the chain with a stabilization asked for: the hopping
    has its one singular value above the threshold, and [sqrt_hop] is there. *)
Lemma sqrt_hop_singular_iff_counterexample :
  ~ (forall pm sm u s vh k,
       modes chain h_chain t_chain tol_default forced = Ok (pm, sm) ->
       hopping_svd chain t_chain (finfo_eps chain * tol_default) = Ok (u, s, vh, k) ->
       (sqrt_hop sm <> None <-> (k < nrows h_chain)%nat)).
Proof.
  intros H.
  specialize (H _ _ _ _ _ _ chain_modes_forced chain_hopping_svd).
  cbn [sqrt_hop modes_sm_forced nrows h_chain mat1] in H.
  assert (Hlt : (1 < 1)%nat) by (apply H; discriminate). lia.
Qed.

Lemma zero_velocity_iff_witness :
  resolve_modes chain [Ci; Copp Ci] transfer_evecs extract_fast tol_default =
    Ok (transfer_evecs, row11, [2; -2]) /\
  Forall (fun x => finfo_eps chain * tol_default <= Rabs x) (velocities modes_pm).
Proof.
  split; [exact (chain_resolve_modes extract_fast eq_refl) | ].
  exact (proj1 (proj2 (@zero_velocity_iff chain [Ci; Copp Ci] transfer_evecs extract_fast
                         tol_default transfer_evecs row11 [2; -2]
                         (chain_resolve_modes extract_fast eq_refl)))
               modes_psi modes_pm (chain_make_proper_modes extract_fast eq_refl)).
Defined.

Lemma chain_threshold : 0 < finfo_eps chain * tol_default.
Proof. unfold tol_default. cbn [finfo_eps chain]. lra. Qed.

Lemma mode_count_mismatch_iff_witness :
  resolve_modes chain [Ci; Copp Ci] transfer_evecs extract_fast tol_default =
    Ok (transfer_evecs, row11, [2; -2]) /\
  halves (velocities modes_pm).
Proof.
  split; [exact (chain_resolve_modes extract_fast eq_refl) | ].
  exact (proj1 (proj2 (@mode_count_mismatch_iff chain [Ci; Copp Ci] transfer_evecs
                         extract_fast tol_default transfer_evecs row11 [2; -2]
                         chain_threshold (chain_resolve_modes extract_fast eq_refl)))
               modes_psi modes_pm (chain_make_proper_modes extract_fast eq_refl)).
Defined.

(** C7, as stated, at a band-edge mode next to a right mover: the numbers of
    negative and of positive velocities differ (0 and 1), and the error is
    the zero-velocity one. *)
Lemma mode_count_mismatch_counterexample :
  ~ (forall psi1 full_psi1 vels,
       resolve_modes chain lmbdainv_edge psi_edge extract_fast tol_default =
         Ok (psi1, full_psi1, vels) ->
       (make_proper_modes chain lmbdainv_edge psi_edge extract_fast tol_default =
          Err ModeCountMismatchError <->
        count_neg vels <> count_pos vels)).
Proof.
  intros H. specialize (H _ _ _ edge_resolve_modes).
  rewrite edge_make_proper_modes in H. destruct edge_counts as [Hn Hp].
  rewrite Hn, Hp in H.
  assert (He : @Err (matrix * PropagatingModes) ZeroVelocityError = Err ModeCountMismatchError)
    by (apply H; discriminate).
  discriminate He.
Qed.

Lemma modes_zero_hopping_witness :
  exists pm sm,
    modes chain (zeros 2 2) (zeros 2 1) tol_default None = Ok (pm, sm) /\
    shape (wave_functions pm) = (2%nat, 0%nat) /\
    velocities pm = [] /\ momenta pm = [] /\ nmodes sm = 0%nat.
Proof.
  apply (@modes_zero_hopping chain (zeros 2 2) (zeros 2 1) tol_default None 2 1);
    [reflexivity | reflexivity | apply all_zero_zeros].
Defined.

Lemma setup_linsys_zero_hopping_witness :
  setup_linsys chain h_chain (zeros 1 1) tol_default None = Err DegenerateHoppingError.
Proof.
  apply (@setup_linsys_zero_hopping chain h_chain (zeros 1 1) tol_default None).
  apply all_zero_zeros.
Defined.

(** * Further properties *)

Section Provenance.

Variable K : LinAlg.

Lemma stabilize_setup_error (h_cell u v : matrix) (eps : R) :
  raises_only setup_error (stabilize K h_cell u v eps).
Proof.
  unfold stabilize.
  apply raises_only_bind.
  - eapply raises_only_weaken; [ | apply raises_only_lift].
    intros e He. right; right; right. exact He.
  - intros sol _. destruct (Rltb _ eps); [ | apply raises_only_ok].
    apply raises_only_err. right; right; left. reflexivity.
Qed.

Lemma setup_linsys_setup_error (h_cell h_hop : matrix) (tol : R)
      (stabilization : stabilization_t) :
  complex_any h_hop = true ->
  raises_only setup_error (setup_linsys K h_cell h_hop tol stabilization).
Proof.
  intros Hany.
  assert (Hw : forall A (r : Res A), raises_only foreign r -> raises_only setup_error r).
  { intros A r. apply raises_only_weaken. intros e He. right; right; right. exact He. }
  unfold setup_linsys. rewrite Hany. cbn [negb].
  apply raises_only_bind.
  - unfold hopping_svd. apply raises_only_bind; [apply Hw, raises_only_lift | ].
    intros [[u s] vh] _.
    destruct (negb _); [apply raises_only_err; left; reflexivity | ].
    apply raises_only_bind; [ | intros; apply raises_only_ok].
    unfold index. destruct (nth_error s 0); [apply raises_only_ok | ].
    apply raises_only_err. right; left. reflexivity.
  - intros [[[u s] vh] k] _. destruct (_ && _)%bool.
    + apply Hw, fast_path_foreign.
    + unfold general_path.
      apply raises_only_bind; [apply Hw, reduced_bases_foreign | intros [u' v'] _].
      apply raises_only_bind.
      * unfold onsite_inverse. destruct (add_imaginary _ _); [apply stabilize_setup_error | ].
        apply raises_only_bind; [apply Hw, raises_only_lift | intros sol _].
        destruct (Rltb _ _); [apply stabilize_setup_error | apply raises_only_ok].
      * intros [[h sol] need] _.
        apply raises_only_bind; [apply Hw, pencil_foreign | intros [A B] _].
        apply raises_only_bind; [apply Hw, reduce_pencil_foreign | intros; apply raises_only_ok].
Qed.

(** X1.  [setup_linsys] raises the degenerate-hopping error exactly when the
    hopping has no nonzero entry. *)
Theorem setup_linsys_degenerate_iff (h_cell h_hop : matrix) (tol : R)
        (stabilization : stabilization_t) :
  setup_linsys K h_cell h_hop tol stabilization = Err DegenerateHoppingError <->
  complex_any h_hop = false.
Proof.
  split.
  - intros H. destruct (complex_any h_hop) eqn:Hany; [ | reflexivity].
    pose proof (@setup_linsys_setup_error h_cell h_hop tol stabilization Hany _ H) as He.
    destruct He as [He | [He | [He | [He | He]]]]; discriminate He.
  - intros Hany. unfold setup_linsys. now rewrite Hany.
Qed.

(** The errors of [finish_modes]. *)
Lemma finish_modes_errors (lmbdainv : list C) (thr : R) (st : matrix * matrix * list R) :
  raises_only (fun e => velocity_error e \/ e = BroadcastError)
              (finish_modes lmbdainv thr st).
Proof.
  destruct st as [[psi full_psi] vels]. unfold finish_modes.
  destruct (existsb _ vels); [apply raises_only_err; left; left; reflexivity | ].
  destruct (negb _); [apply raises_only_err; left; right; reflexivity | ].
  destruct (negb _); [apply raises_only_err; right; reflexivity | apply raises_only_ok].
Qed.

Lemma modes_late_error (h_cell h_hop : matrix) (tol : R) (stabilization : stabilization_t) :
  nrows h_cell = ncols h_cell -> nrows h_cell = nrows h_hop ->
  raises_only late_error (modes K h_cell h_hop tol stabilization).
Proof.
  intros E1 E2. unfold modes. rewrite <- E1, <- E2, Nat.eqb_refl. cbn [negb orb].
  destruct (complex_any h_hop) eqn:Hany; cbn [negb]; [ | apply raises_only_ok].
  assert (Hf : forall A (r : Res A), raises_only foreign r -> raises_only late_error r).
  { intros A r. apply raises_only_weaken. intros e He. left. right; right; right. exact He. }
  apply raises_only_bind.
  - eapply raises_only_weaken; [ | apply (setup_linsys_setup_error _ _ _ _ Hany)].
    intros e He. left. exact He.
  - intros ls Hls. cbn beta iota zeta.
    apply raises_only_bind; [apply Hf, unified_eigenproblem_foreign | intros eig Heig].
    pose proof (@unified_eigenproblem_closures K _ _ _ _ Heig) as Hcl.
    apply raises_only_bind; [apply Hf, Hcl | intros z _].
    apply raises_only_bind; [apply Hf, Hcl | intros pv _].
    apply raises_only_bind; [ | intros [pv' pm] _; apply raises_only_ok].
    unfold make_proper_modes. apply raises_only_bind.
    + apply Hf, resolve_modes_foreign.
      exact (@setup_linsys_extract_foreign K _ _ _ _ _ Hls).
    + intros st _. eapply raises_only_weaken; [ | apply finish_modes_errors].
      intros e [He | He]; [right; exact He | ].
      left. right; right; right. right. exact He.
Qed.

Lemma modes_shape_check (h_cell h_hop : matrix) (tol : R)
      (stabilization : stabilization_t) :
  modes K h_cell h_hop tol stabilization = Err ShapeError <->
  nrows h_cell <> ncols h_cell \/ nrows h_cell <> nrows h_hop.
Proof.
  split.
  - intros H.
    destruct (Nat.eq_dec (nrows h_cell) (ncols h_cell)) as [E1 | E1]; [ | now left].
    destruct (Nat.eq_dec (nrows h_cell) (nrows h_hop)) as [E2 | E2]; [ | now right].
    exfalso. pose proof (@modes_late_error h_cell h_hop tol stabilization E1 E2 _ H) as He.
    destruct He as [[He | [He | [He | [He | He]]]] | [He | He]]; discriminate He.
  - intros H. unfold modes.
    destruct (Nat.eqb (nrows h_cell) (ncols h_cell)) eqn:E1; cbn [negb orb]; [ | reflexivity].
    destruct (Nat.eqb (nrows h_cell) (nrows h_hop)) eqn:E2; cbn [negb]; [ | reflexivity].
    apply Nat.eqb_eq in E1, E2. destruct H; contradiction.
Qed.

(** X2.  [modes] raises the shape error exactly when the cell Hamiltonian is
    not square or its number of rows differs from that of the hopping: no
    later stage raises it. *)
Theorem modes_shape_error_iff (h_cell h_hop : matrix) (tol : R)
        (stabilization : stabilization_t) :
  modes K h_cell h_hop tol stabilization = Err ShapeError <->
  nrows h_cell <> ncols h_cell \/ nrows h_cell <> nrows h_hop.
Proof. exact (modes_shape_check h_cell h_hop tol stabilization). Qed.

(** X3.  [modes] never raises the degenerate-hopping error: a hopping that is
    identically zero is answered before [setup_linsys] is called. *)
Theorem modes_never_degenerate (h_cell h_hop : matrix) (tol : R)
        (stabilization : stabilization_t) :
  modes K h_cell h_hop tol stabilization <> Err DegenerateHoppingError.
Proof.
  intros H.
  destruct (Nat.eq_dec (nrows h_cell) (ncols h_cell)) as [E1 | E1].
  - destruct (Nat.eq_dec (nrows h_cell) (nrows h_hop)) as [E2 | E2].
    + pose proof (@modes_late_error h_cell h_hop tol stabilization E1 E2 _ H) as He.
      destruct He as [[He | [He | [He | [He | He]]]] | [He | He]]; discriminate He.
    + assert (Hs : modes K h_cell h_hop tol stabilization = Err ShapeError)
        by (apply modes_shape_check; now right).
      congruence.
  - assert (Hs : modes K h_cell h_hop tol stabilization = Err ShapeError)
      by (apply modes_shape_check; now left).
    congruence.
Qed.

End Provenance.

Lemma modes_never_degenerate_witness :
  modes chain h_chain (zeros 1 1) tol_default None <> Err DegenerateHoppingError.
Proof.
  exact (modes_never_degenerate chain h_chain (zeros 1 1) tol_default None).
Defined.

Section FlatBand.

Variable K : LinAlg.

Lemma stabilize_flat_inv (h_cell u v : matrix) (eps : R) :
  stabilize K h_cell u v eps = Err FlatBandError ->
  exists sol, kla_lu_factor K (regularized h_cell u v) = Some sol /\
              kla_rcond_from_lu K sol (norm1 (regularized h_cell u v)) < eps.
Proof.
  unfold stabilize.
  destruct (kla_lu_factor K (regularized h_cell u v)) as [sol | ]; cbn [lift bind];
    [ | discriminate].
  destruct (Rltb _ eps) eqn:Hr; [ | discriminate].
  intros _. exists sol. split; [reflexivity | now apply Rltb_true].
Qed.

(** X4.  The flat-band error comes from nowhere else: when [setup_linsys] raises
    it, the general path was taken, the anti-Hermitian term was added, and
    the reciprocal condition number of the regularized Hamiltonian is below
    [eps]. *)
Theorem flat_band_only_if (h_cell h_hop : matrix) (tol : R)
        (stabilization : stabilization_t) :
  setup_linsys K h_cell h_hop tol stabilization = Err FlatBandError ->
  exists u s vh k u' v' sol,
    hopping_svd K h_hop (finfo_eps K * tol) = Ok (u, s, vh, k) /\
    (Nat.eqb k (nrows h_cell) && is_none stabilization)%bool = false /\
    reduced_bases (nrows h_cell) u s vh k = Ok (u', v') /\
    regularization_attempted K h_cell h_hop (finfo_eps K * tol) stabilization /\
    kla_lu_factor K (regularized h_cell u' v') = Some sol /\
    kla_rcond_from_lu K sol (norm1 (regularized h_cell u' v')) < finfo_eps K * tol.
Proof.
  assert (Hnf : ~ foreign FlatBandError) by (intros [H | H]; discriminate H).
  unfold setup_linsys.
  destruct (complex_any h_hop); cbn [negb]; [ | discriminate].
  destruct (hopping_svd K h_hop (finfo_eps K * tol)) as [[[[u s] vh] k] | e] eqn:Hsvd;
    cbn [bind].
  - destruct (Nat.eqb k (nrows h_cell) && is_none stabilization)%bool eqn:Hpath.
    + intros H. exfalso. apply Hnf. exact (@fast_path_foreign K _ _ _ _ H).
    + unfold general_path.
      destruct (reduced_bases (nrows h_cell) u s vh k) as [[u' v'] | e] eqn:Hred;
        cbn [bind];
        [ | intros H; injection H as ->; exfalso; apply Hnf;
            exact (@reduced_bases_foreign _ _ _ _ _ _ Hred)].
      destruct (onsite_inverse K h_cell h_hop u' v' (finfo_eps K * tol)
                  (fst (stabilization_flags stabilization)))
        as [[[h sol] need] | e] eqn:Hon; cbn [bind].
      * intros H. exfalso. apply Hnf. revert H. generalize FlatBandError.
        change (raises_only foreign
                  (r <- pencil K u' v' k need sol;;
                   (let '(A, B) := r in
                    matrices <- reduce_pencil K A B (finfo_eps K * tol) tol
                                  (snd (stabilization_flags stabilization));;
                    Ok {| eigenproblem := matrices; v := Some (rows_to (ncols h_hop) v');
                          extract := extract_general K u' v' k need sol |}))).
        apply raises_only_bind; [apply pencil_foreign | ].
        intros [A B] _. apply raises_only_bind; [apply reduce_pencil_foreign | ].
        intros. apply raises_only_ok.
      * intros H. injection H as ->. unfold onsite_inverse in Hon.
        destruct (add_imaginary _ _) eqn:Hadd.
        -- apply stabilize_flat_inv in Hon. destruct Hon as [sol [Hlu Hr]].
           exists u, s, vh, k, u', v', sol. repeat split; try assumption; try reflexivity.
           left. exact Hadd.
        -- destruct (kla_lu_factor K h_cell) as [sol0 | ] eqn:Hlu0; cbn [lift bind] in Hon;
             [ | discriminate].
           destruct (Rltb _ _) eqn:Hr0; [ | discriminate].
           apply stabilize_flat_inv in Hon. destruct Hon as [sol [Hlu Hr]].
           exists u, s, vh, k, u', v', sol. repeat split; try assumption; try reflexivity.
           right. exists sol0. split; [exact Hlu0 | now apply Rltb_true].
  - intros H. injection H as ->. exfalso.
    unfold hopping_svd in Hsvd.
    destruct (la_svd K h_hop) as [[[u s] vh] | ]; cbn [lift bind] in Hsvd; [ | discriminate].
    destruct (negb _); [discriminate | ].
    unfold index in Hsvd. destruct (nth_error s 0); cbn [bind] in Hsvd; discriminate.
Qed.

End FlatBand.

Lemma flat_setup_linsys :
  setup_linsys chain h_flat t_chain tol_default damped = Err FlatBandError.
Proof.
  unfold setup_linsys. rewrite chain_complex_any. cbn [negb].
  rewrite chain_hopping_svd. cbn [bind].
  change (Nat.eqb 1 (nrows h_flat) && is_none damped)%bool with false.
  change (nrows h_flat) with 1%nat.
  unfold general_path. rewrite chain_reduced_bases. cbn [bind].
  unfold onsite_inverse. rewrite flat_attempted. unfold stabilize.
  assert (Hlu : kla_lu_factor chain (regularized h_flat (mat1 C1) (mat1 C1)) =
                Some (regularized h_flat (mat1 C1) (mat1 C1))) by reflexivity.
  rewrite Hlu. cbn [lift bind].
  rewrite flat_rcond. unfold tol_default. cbn [finfo_eps chain]. r_tests lra. reflexivity.
Qed.

Lemma flat_band_only_if_witness :
  exists u s vh k u' v' sol,
    hopping_svd chain t_chain (finfo_eps chain * tol_default) = Ok (u, s, vh, k) /\
    (Nat.eqb k (nrows h_flat) && is_none damped)%bool = false /\
    reduced_bases (nrows h_flat) u s vh k = Ok (u', v') /\
    regularization_attempted chain h_flat t_chain (finfo_eps chain * tol_default) damped /\
    kla_lu_factor chain (regularized h_flat u' v') = Some sol /\
    kla_rcond_from_lu chain sol (norm1 (regularized h_flat u' v')) <
      finfo_eps chain * tol_default.
Proof.
  exact (flat_band_only_if chain h_flat t_chain tol_default damped flat_setup_linsys).
Defined.

Section Eigen.

Variable K : LinAlg.

Lemma masks_disjoint_regular (eps : R) (evs : list C) (i : nat) :
  nth i (map (fun e => Rltb (1 + eps) (Cabs e)) evs) false = true ->
  nth i (map (fun e => Rltb (Rabs (Cabs e - 1)) eps) evs) false = false.
Proof.
  revert i. induction evs as [ | e evs IH]; intros i; [destruct i; discriminate | ].
  destruct i as [ | i]; cbn [map nth]; [ | apply IH].
  intros H. apply Rltb_true in H. apply Rltb_false.
  pose proof (Rle_abs (Cabs e - 1)). lra.
Qed.

Lemma masks_disjoint_general (eps : R) (ab : list (C * C)) (i : nat) :
  nth i (map (fun p => Rltb ((1 + eps) * Cabs (snd p)) (Cabs (fst p))) ab) false = true ->
  nth i (map (fun p => Rltb (Rabs (Cabs (fst p) - Cabs (snd p))) (eps * Cabs (snd p))) ab)
      false = false.
Proof.
  revert i. induction ab as [ | p ab IH]; intros i; [destruct i; discriminate | ].
  destruct i as [ | i]; cbn [map nth]; [ | apply IH].
  intros H. apply Rltb_true in H. apply Rltb_false.
  pose proof (Rle_abs (Cabs (fst p) - Cabs (snd p))). lra.
Qed.

Lemma eigen_masks (a : matrix) (b : option matrix) (tol : R) (eig : Eigen) :
  unified_eigenproblem K a b tol = Ok eig ->
  length (evanselect eig) = length (ev eig) /\
  length (propselect eig) = length (ev eig) /\
  forall i, nth i (evanselect eig) false = true -> nth i (propselect eig) false = false.
Proof.
  unfold unified_eigenproblem. destruct b as [b | ].
  - destruct (kla_gen_schur K a b) as [[[[[s t] z] alpha] beta] | ]; cbn [lift bind];
      [ | discriminate].
    intros H. injection H as <-. cbn [ev evanselect propselect].
    rewrite !length_map. repeat split. apply masks_disjoint_general.
  - destruct (kla_schur K a) as [[[t z] evs] | ]; cbn [lift bind]; [ | discriminate].
    intros H. injection H as <-. cbn [ev evanselect propselect].
    rewrite !length_map. repeat split. apply masks_disjoint_regular.
Qed.

(** X5.  The three arrays [unified_eigenproblem] returns are parallel, and no
    eigenvalue is selected both as decaying and as propagating. *)
Theorem unified_eigenproblem_masks (a : matrix) (b : option matrix) (tol : R) (eig : Eigen) :
  unified_eigenproblem K a b tol = Ok eig ->
  length (evanselect eig) = length (ev eig) /\
  length (propselect eig) = length (ev eig) /\
  forall i, nth i (evanselect eig) false = true -> nth i (propselect eig) false = false.
Proof. exact (eigen_masks a b tol eig). Qed.

Lemma select_mask_length (A : Type) (mask : list bool) (a : list A) :
  length mask = length a -> length (select_mask mask a) = count_true mask.
Proof.
  unfold count_true. revert a. induction mask as [ | m mask IH]; intros a Hl; [reflexivity | ].
  destruct a as [ | x a]; [discriminate | ]. cbn [select_mask filter].
  destruct m; cbn [length]; rewrite IH; auto.
Qed.

Lemma modes_ok_counts (h_cell h_hop : matrix) (tol : R) (stabilization : stabilization_t)
      (pm : PropagatingModes) (sm : StabilizedModes) :
  modes K h_cell h_hop tol stabilization = Ok (pm, sm) ->
  (velocities pm = [] /\ momenta pm = [] /\ wave_functions pm = zeros (nrows h_cell) 0 /\
   nmodes sm = 0%nat) \/
  (exists eig a b st psi',
     unified_eigenproblem K a b tol = Ok eig /\
     finish_modes (select_mask (propselect eig) (ev eig)) (finfo_eps K * tol) st =
       Ok (psi', pm) /\
     nmodes sm = (count_true (propselect eig) / 2)%nat).
Proof.
  unfold modes.
  destruct (Nat.eqb (nrows h_cell) (ncols h_cell)); cbn [negb orb]; [ | discriminate].
  destruct (Nat.eqb (nrows h_cell) (nrows h_hop)); cbn [negb]; [ | discriminate].
  destruct (complex_any h_hop); cbn [negb].
  - intros H. right.
    destruct (setup_linsys K h_cell h_hop tol stabilization) as [ls | ];
      cbn [bind] in H; [ | discriminate].
    cbn beta iota zeta in H.
    destruct (unified_eigenproblem K _ _ tol) as [eig | ] eqn:Heig;
      cbn [bind] in H; [ | discriminate].
    destruct (ord_schur eig _) as [z | ]; cbn [bind] in H; [ | discriminate].
    destruct (vec_gen eig _) as [prop_vecs | ]; cbn [bind] in H; [ | discriminate].
    destruct (make_proper_modes K _ prop_vecs _ tol) as [[psi' pm'] | ] eqn:Hm;
      cbn [bind] in H; [ | discriminate].
    injection H as <- <-.
    unfold make_proper_modes in Hm.
    destruct (resolve_modes K _ prop_vecs _ tol) as [st | ];
      cbn [bind] in Hm; [ | discriminate].
    exists eig, (fst (eigenproblem ls)), (snd (eigenproblem ls)), st, psi'.
    repeat split; assumption.
  - intros H. injection H as <- <-. left. cbn. auto.
Qed.

Lemma finish_modes_lengths (lmbdainv : list C) (thr : R) (st : matrix * matrix * list R)
      (psi' : matrix) (pm : PropagatingModes) :
  finish_modes lmbdainv thr st = Ok (psi', pm) ->
  length (velocities pm) = length lmbdainv /\
  length (momenta pm) = length lmbdainv /\
  ncols (wave_functions pm) = length lmbdainv /\
  ncols psi' = length lmbdainv /\
  (2 * count_neg (velocities pm))%nat = length lmbdainv.
Proof.
  destruct st as [[psi full_psi] vels]. intros H.
  pose proof H as H'. apply finish_modes_ok in H'.
  destruct H' as (_ & Hc & Hlen & Hv & Hm).
  pose proof (Permutation_length (modes_order_perm lmbdainv vels)) as Ho.
  rewrite length_seq in Ho.
  assert (Hcn : count_neg (velocities pm) = count_neg vels).
  { rewrite Hv. apply count_neg_perm, sorted_velocities_perm. }
  rewrite Hv, Hm, !length_map, <- Hv, Hcn.
  unfold finish_modes in H.
  destruct (existsb _ vels); [discriminate | ].
  destruct (negb _); [discriminate | ]. destruct (negb _); [discriminate | ].
  injection H as <- <-. cbn [wave_functions div_cols take_cols tabulate ncols].
  fold (modes_order lmbdainv vels). lia.
Qed.

(** X6.  The arrays of the propagating modes are parallel and twice as long as
    [nmodes]: [modes] returns as many velocities, momenta and wave
    functions as there are propagating modes, [nmodes] of them with a negative
    velocity. *)
Theorem modes_parallel_arrays (h_cell h_hop : matrix) (tol : R)
        (stabilization : stabilization_t) (pm : PropagatingModes) (sm : StabilizedModes) :
  modes K h_cell h_hop tol stabilization = Ok (pm, sm) ->
  length (velocities pm) = (2 * nmodes sm)%nat /\
  length (momenta pm) = (2 * nmodes sm)%nat /\
  ncols (wave_functions pm) = (2 * nmodes sm)%nat /\
  count_neg (velocities pm) = nmodes sm.
Proof.
  intros H. apply modes_ok_counts in H.
  destruct H as [(-> & -> & -> & ->) | (eig & a & b & st & psi' & Heig & Hf & ->)].
  - cbn. auto.
  - apply eigen_masks in Heig. destruct Heig as (_ & Hp & _).
    apply finish_modes_lengths in Hf. destruct Hf as (Hv & Hm & Hw & _ & Hc).
    rewrite (select_mask_length _ _ _ Hp) in Hv, Hm, Hw, Hc.
    assert (Hn : (count_true (propselect eig) / 2)%nat = count_neg (velocities pm)).
    { rewrite <- Hc, Nat.mul_comm. apply Nat.div_mul. discriminate. }
    rewrite Hn. lia.
Qed.

End Eigen.

Lemma unified_eigenproblem_masks_witness :
  length (evanselect eigen_chain) = length (ev eigen_chain) /\
  length (propselect eigen_chain) = length (ev eigen_chain) /\
  forall i, nth i (evanselect eigen_chain) false = true ->
            nth i (propselect eigen_chain) false = false.
Proof.
  exact (unified_eigenproblem_masks chain transfer None tol_default eigen_chain
           chain_unified_eigenproblem).
Defined.

Lemma modes_parallel_arrays_witness :
  length (velocities modes_pm) = (2 * nmodes modes_sm)%nat /\
  length (momenta modes_pm) = (2 * nmodes modes_sm)%nat /\
  ncols (wave_functions modes_pm) = (2 * nmodes modes_sm)%nat /\
  count_neg (velocities modes_pm) = nmodes modes_sm.
Proof.
  exact (modes_parallel_arrays chain h_chain t_chain tol_default None modes_pm modes_sm
           chain_modes).
Defined.

Section Sorting.

Variable K : LinAlg.

Lemma combine_map_nth (vels ks : list R) (order : list nat) :
  combine (map (fun i => nth i vels 0) order) (map (fun i => nth i ks 0) order) =
  map (fun i => (nth i vels 0, nth i ks 0)) order.
Proof. induction order as [ | i order IH]; cbn [map combine]; congruence. Qed.

Lemma map_pair_seq (vels ks : list R) :
  length ks = length vels ->
  map (fun i => (nth i vels 0, nth i ks 0)) (seq 0 (length vels)) = combine vels ks.
Proof.
  intros Hlen. apply nth_ext with (d := (0, 0)) (d' := (0, 0)).
  - rewrite length_map, length_seq, length_combine. lia.
  - intros n Hn. rewrite length_map, length_seq in Hn.
    rewrite nth_map_in with (d' := 0%nat) by (now rewrite length_seq).
    rewrite seq_nth by exact Hn. now rewrite combine_nth by lia.
Qed.

(** X7.  The sort of [make_proper_modes] keeps each velocity with its momentum:
    the pairs it returns are a rearrangement of the computed velocities
    paired with minus the angle of their eigenvalue. *)
Theorem make_proper_modes_pairs (lmbdainv : list C) (psi : matrix)
        (extract : matrix -> list C -> Res matrix) (tol : R)
        (psi1 full_psi1 : matrix) (vels : list R) (psi' : matrix) (pm : PropagatingModes) :
  resolve_modes K lmbdainv psi extract tol = Ok (psi1, full_psi1, vels) ->
  make_proper_modes K lmbdainv psi extract tol = Ok (psi', pm) ->
  Permutation (combine (velocities pm) (momenta pm))
              (combine vels (map (fun z => - angle z) lmbdainv)).
Proof.
  intros Hres H. rewrite (@make_proper_modes_resolved K _ _ _ _ _ Hres) in H.
  apply finish_modes_ok in H. destruct H as (_ & _ & Hlen & -> & ->).
  rewrite combine_map_nth.
  rewrite <- (map_pair_seq vels (map (fun z => - angle z) lmbdainv))
    by (now rewrite length_map).
  apply Permutation_map, modes_order_perm.
Qed.

(** X8.  The order [make_proper_modes] gives the modes: among the modes of
    negative velocity the momenta ascend with the position, among those of
    positive velocity they descend. *)
Theorem make_proper_modes_momenta_order (lmbdainv : list C) (psi : matrix)
        (extract : matrix -> list C -> Res matrix) (tol : R)
        (psi' : matrix) (pm : PropagatingModes) :
  make_proper_modes K lmbdainv psi extract tol = Ok (psi', pm) ->
  forall a b, (a < b)%nat -> (b < length (velocities pm))%nat ->
    (nth a (velocities pm) 0 < 0 -> nth b (velocities pm) 0 < 0 ->
     nth a (momenta pm) 0 <= nth b (momenta pm) 0) /\
    (0 < nth a (velocities pm) 0 -> 0 < nth b (velocities pm) 0 ->
     nth b (momenta pm) 0 <= nth a (momenta pm) 0).
Proof.
  unfold make_proper_modes.
  destruct (resolve_modes K lmbdainv psi extract tol) as [st | ]; cbn [bind];
    [ | discriminate].
  apply finish_modes_momenta_order.
Qed.

(** X9.  Without a propagating eigenvalue there is nothing to resolve: on an
    empty [lmbdainv] and a [psi] without columns, [make_proper_modes] returns
    empty velocities and momenta and wave functions without columns. *)
Theorem make_proper_modes_empty (psi : matrix) (extract : matrix -> list C -> Res matrix)
        (tol : R) (full_psi : matrix) :
  ncols psi = 0%nat -> np_empty K 0 = [] -> extract psi [] = Ok full_psi ->
  exists psi' pm,
    make_proper_modes K [] psi extract tol = Ok (psi', pm) /\
    velocities pm = [] /\ momenta pm = [] /\
    ncols (wave_functions pm) = 0%nat /\ ncols psi' = 0%nat.
Proof.
  intros Hc He Hex. unfold make_proper_modes, resolve_modes. rewrite Hex, Hc, He.
  cbn [bind]. unfold cluster_boundaries. cbn [map length Nat.mul resize seq diff argwhere_succ
    Nat.eqb andb negb intervals hd cluster_loop bind finish_modes existsb filter lexsort
    sort_keys combine fold_left stable_sort].
  do 2 eexists. split; [reflexivity | ]. cbn. auto.
Qed.

(** X10.  On the general path [sqrt_hop] has as many rows as the hopping has
    columns, at most the rows of the cell, and one column per singular value
    above the threshold. *)
Theorem setup_linsys_v_shape (h_cell h_hop : matrix) (tol : R)
        (stabilization : stabilization_t) (ls : Linsys) (w : matrix) :
  setup_linsys K h_cell h_hop tol stabilization = Ok ls -> v ls = Some w ->
  exists u s vh k,
    hopping_svd K h_hop (finfo_eps K * tol) = Ok (u, s, vh, k) /\
    shape w = (Nat.min (ncols h_hop) (nrows h_cell), k).
Proof.
  intros H Hv. apply setup_linsys_ok_inv in H.
  destruct H as [_ [u [s [vh [k [Hsvd [[_ [_ H]] | [_ H]]]]]]]].
  - apply fast_path_ok in H. destruct H as [Hn _]. congruence.
  - exists u, s, vh, k. split; [exact Hsvd | ].
    unfold general_path in H.
    destruct (reduced_bases (nrows h_cell) u s vh k) as [[u' v'] | ] eqn:Hred;
      cbn [bind] in H; [ | discriminate].
    destruct (onsite_inverse K _ _ _ _ _ _) as [[[h sol] need] | ]; cbn [bind] in H;
      [ | discriminate].
    destruct (pencil K _ _ _ _ _) as [[A B] | ]; cbn [bind] in H; [ | discriminate].
    destruct (reduce_pencil K _ _ _ _ _) as [m | ]; cbn [bind] in H; [ | discriminate].
    injection H as <-. cbn [v] in Hv. injection Hv as <-.
    unfold reduced_bases in Hred.
    destruct (assign_block _ _ _ _ _ _) as [v0 | ] eqn:Hab; cbn [bind] in Hred;
      [ | discriminate].
    injection Hred as _ <-.
    unfold assign_block in Hab.
    destruct (broadcast_to _ _ _) as [X | ]; cbn [bind] in Hab; [ | discriminate].
    injection Hab as <-. reflexivity.
Qed.

End Sorting.

Lemma make_proper_modes_pairs_witness :
  Permutation (combine (velocities modes_pm) (momenta modes_pm))
              (combine [2; -2] (map (fun z => - angle z) [Ci; Copp Ci])).
Proof.
  exact (make_proper_modes_pairs chain [Ci; Copp Ci] transfer_evecs extract_fast tol_default
           transfer_evecs row11 [2; -2] modes_psi modes_pm
           (chain_resolve_modes extract_fast eq_refl)
           (chain_make_proper_modes extract_fast eq_refl)).
Defined.

Lemma two_make_proper_modes :
  exists psi pm,
    make_proper_modes chain lmbdainv_two psi_two extract_two tol_default = Ok (psi, pm) /\
    velocities pm = [- (8 / 5); -2; 8 / 5; 2].
Proof.
  unfold make_proper_modes. rewrite two_resolve_modes. cbn [bind].
  unfold finish_modes.
  change (lexsort (sort_keys [2; -2; 8 / 5; - (8 / 5)] (map (fun z => - angle z) lmbdainv_two))
                  (length [2; -2; 8 / 5; - (8 / 5)]))
    with (modes_order lmbdainv_two [2; -2; 8 / 5; - (8 / 5)]).
  rewrite two_order, two_momenta.
  cbn [existsb filter length map nth Nat.eqb Nat.mul Nat.add negb].
  r_vals lra. unfold tol_default. cbn [finfo_eps chain]. r_tests lra.
  cbn [orb filter length Nat.mul Nat.add Nat.eqb negb].
  do 2 eexists. split; reflexivity.
Qed.

Lemma make_proper_modes_momenta_order_witness :
  exists psi pm,
    make_proper_modes chain lmbdainv_two psi_two extract_two tol_default = Ok (psi, pm) /\
    nth 0 (momenta pm) 0 <= nth 1 (momenta pm) 0 /\
    nth 3 (momenta pm) 0 <= nth 2 (momenta pm) 0.
Proof.
  destruct two_make_proper_modes as (psi & pm & H & Hv).
  exists psi, pm. split; [exact H | ].
  pose proof (make_proper_modes_momenta_order chain lmbdainv_two psi_two extract_two
                tol_default psi pm H) as Ho.
  split.
  - apply (Ho 0 1)%nat; try rewrite Hv; cbn [length nth]; try lia; lra.
  - apply (Ho 2 3)%nat; try rewrite Hv; cbn [length nth]; try lia; lra.
Defined.

Lemma make_proper_modes_empty_witness :
  exists psi' pm,
    make_proper_modes chain [] (zeros 2 0) extract_fast tol_default = Ok (psi', pm) /\
    velocities pm = [] /\ momenta pm = [] /\
    ncols (wave_functions pm) = 0%nat /\ ncols psi' = 0%nat.
Proof.
  exact (make_proper_modes_empty chain (zeros 2 0) extract_fast tol_default
           (rows_to 1 (zeros 2 0)) eq_refl eq_refl eq_refl).
Defined.

Lemma setup_linsys_v_shape_witness :
  exists u s vh k,
    hopping_svd chain t_chain (finfo_eps chain * tol_default) = Ok (u, s, vh, k) /\
    shape (mat1 C1) = (Nat.min (ncols t_chain) (nrows h_chain), k).
Proof.
  exact (setup_linsys_v_shape chain h_chain t_chain tol_default forced linsys_stabilized
           (mat1 C1) chain_setup_linsys_forced eq_refl).
Defined.

Lemma Rsum_acc (l : list R) (a : R) : fold_left Rplus l a = a + Rsum l.
Proof.
  unfold Rsum. revert a. induction l as [ | x l IH]; intros a; cbn [fold_left]; [lra | ].
  rewrite (IH (a + x)), (IH (0 + x)). lra.
Qed.

Lemma Rsum_cons (x : R) (l : list R) : Rsum (x :: l) = x + Rsum l.
Proof. unfold Rsum at 1. cbn [fold_left]. rewrite Rsum_acc. lra. Qed.

Lemma Csum_acc (l : list C) (a : C) : fold_left Cadd l a = Cadd a (Csum l).
Proof.
  unfold Csum. revert a. induction l as [ | x l IH]; intros a; cbn [fold_left].
  - destruct a as [u w]. unfold Cadd, C0, Re, Im; cbn [fst snd]. f_equal; lra.
  - rewrite (IH (Cadd a x)), (IH (Cadd C0 x)).
    destruct a as [u w], x as [p q], (fold_left Cadd l C0) as [r t].
    unfold Cadd, C0, Re, Im; cbn [fst snd]. f_equal; lra.
Qed.

Lemma Im_Csum (l : list C) : Im (Csum l) = Rsum (map Im l).
Proof.
  induction l as [ | z l IH]; [reflexivity | ].
  unfold Csum at 1. cbn [fold_left map]. rewrite Csum_acc, Rsum_cons, <- IH.
  destruct z as [p q], (Csum l) as [r t]. unfold Cadd, C0, Re, Im; cbn [fst snd]. lra.
Qed.

Lemma Rsum_nonpos (l : list R) : Forall (fun x => x <= 0) l -> Rsum l <= 0.
Proof.
  induction 1 as [ | x l Hx _ IH]; [unfold Rsum; cbn; lra | ].
  rewrite Rsum_cons. lra.
Qed.

Lemma Rsum_zero (l : list R) : Forall (fun x => x = 0) l -> Rsum l = 0.
Proof.
  induction 1 as [ | x l Hx _ IH]; [reflexivity | ].
  rewrite Rsum_cons. lra.
Qed.

Lemma band_sqrt (x : R) : Rabs x <= 2 -> 0 <= 1 - (x / 2) ^ 2.
Proof.
  intros H. unfold Rabs in H. destruct (Rcase_abs x); nra.
Qed.

Lemma gap_sqrt (x : R) : 2 < Rabs x -> 0 < (x / 2) ^ 2 - 1.
Proof.
  intros H. unfold Rabs in H. destruct (Rcase_abs x); nra.
Qed.

Lemma f_root (x : R) :
  Cadd (Csub (Cmul (f x) (f x)) (Cscale x (f x))) C1 = C0 /\
  Cnorm2 (f x) <= 1 /\ Im (f x) <= 0.
Proof.
  rewrite f_factor. unfold ClosedForm.factor.
  destruct (Rleb (Rabs x) 2) eqn:Hq.
  - apply Rleb_true in Hq. pose proof (band_sqrt x Hq) as Hb.
    pose proof (sqrt_sqrt _ Hb) as Hs. pose proof (sqrt_pos (1 - (x / 2) ^ 2)) as Hp.
    set (s := sqrt (1 - (x / 2) ^ 2)) in *.
    unfold Cadd, Csub, Cmul, Cscale, Cnorm2, C0, C1, Re, Im; cbn [fst snd].
    split; [f_equal; nra | split; nra].
  - apply Rleb_false in Hq. pose proof (gap_sqrt x Hq) as Hb.
    pose proof (sqrt_sqrt _ (Rlt_le _ _ Hb)) as Hs.
    pose proof (sqrt_lt_R0 _ Hb) as Hp.
    set (s := sqrt ((x / 2) ^ 2 - 1)) in *.
    unfold Cadd, Csub, Cmul, Cscale, Cnorm2, C0, C1, Re, Im; cbn [fst snd].
    unfold Rabs in Hq. destruct (Rcase_abs x) as [Hneg | Hpos].
    + rewrite (Rsign_neg Hneg). split; [f_equal; nra | split; nra].
    + assert (H0 : 0 < x) by lra. rewrite (Rsign_pos H0).
      split; [f_equal; nra | split; nra].
Qed.

(** X11.  The longitudinal factor is the decaying root of the dispersion
    relation: [f(q)^2 - q f(q) + 1 = 0], with a modulus of at most one and an
    imaginary part that is never positive. *)
Theorem f_decaying_root (x : R) :
  Cadd (Csub (Cmul (f x) (f x)) (Cscale x (f x))) C1 = C0 /\
  Cnorm2 (f x) <= 1 /\ Im (f x) <= 0.
Proof. exact (f_root x). Qed.

Lemma f_imaginary (x : R) : Im (f x) < 0 <-> Rabs x < 2.
Proof.
  rewrite f_factor. unfold ClosedForm.factor.
  destruct (Rleb (Rabs x) 2) eqn:Hq; unfold Im; cbn [snd].
  - apply Rleb_true in Hq. pose proof (band_sqrt x Hq) as Hb.
    split.
    + intros H. destruct (Req_dec (Rabs x) 2) as [He | He]; [ | lra].
      exfalso. assert (Hz : 1 - (x / 2) ^ 2 = 0).
      { unfold Rabs in He. destruct (Rcase_abs x); nra. }
      rewrite Hz, sqrt_0 in H. lra.
    + intros H. assert (Hpos : 0 < 1 - (x / 2) ^ 2).
      { apply Rabs_def2 in H. nra. }
      pose proof (sqrt_lt_R0 _ Hpos). lra.
  - apply Rleb_false in Hq. split; intros H; lra.
Qed.

(** X12.  The factor has an imaginary part exactly inside the band,
    [|q| < 2]: on the band edge and outside the band it is real. *)
Theorem f_imaginary_iff (x : R) : Im (f x) < 0 <-> Rabs x < 2.
Proof. exact (f_imaginary x). Qed.


Lemma Rsum_map_ext (A : Type) (g h : A -> R) (l : list A) :
  (forall i, In i l -> g i = h i) -> Rsum (map g l) = Rsum (map h l).
Proof. intros H. f_equal. apply map_ext_in. exact H. Qed.

Lemma Rsum_map_add (A : Type) (g h : A -> R) (l : list A) :
  Rsum (map (fun i => g i + h i) l) = Rsum (map g l) + Rsum (map h l).
Proof.
  induction l as [ | i l IH]; cbn [map]; [unfold Rsum; cbn; lra | ].
  rewrite !Rsum_cons, IH. lra.
Qed.

Lemma Rsum_map_scal (A : Type) (c : R) (g : A -> R) (l : list A) :
  Rsum (map (fun i => c * g i) l) = c * Rsum (map g l).
Proof.
  induction l as [ | i l IH]; cbn [map]; [unfold Rsum; cbn; lra | ].
  rewrite !Rsum_cons, IH. lra.
Qed.

Lemma Rsum_map_swap (A B : Type) (a : A -> B -> R) (l1 : list A) (l2 : list B) :
  Rsum (map (fun i => Rsum (map (fun j => a i j) l2)) l1) =
  Rsum (map (fun j => Rsum (map (fun i => a i j) l1)) l2).
Proof.
  induction l1 as [ | i l1 IH]; cbn [map].
  - symmetry. apply Rsum_zero. apply Forall_forall. intros y Hy.
    apply in_map_iff in Hy. now destruct Hy as [j [<- _]].
  - rewrite Rsum_cons, IH, <- Rsum_map_add. apply Rsum_map_ext. intros j _.
    now rewrite Rsum_cons.
Qed.

(** The imaginary part of an entry of the closed form. *)
Lemma Im_entry (width : nat) (hopping fermi_energy : R) (i j : nat) :
  Im (ClosedForm.entry width hopping fermi_energy i j) =
  Rsum (map (fun p => hopping * Im (ClosedForm.factor (ClosedForm.q width hopping fermi_energy p)) *
                      (ClosedForm.psi width p i * ClosedForm.psi width p j))
            (seq 0 width)).
Proof.
  unfold ClosedForm.entry.
  set (z := Csum _). assert (Hs : Im (Cscale hopping z) = hopping * Im z) by reflexivity.
  rewrite Hs. unfold z. rewrite Im_Csum, map_map, <- Rsum_map_scal.
  apply Rsum_map_ext. intros p _. unfold Cscale, Im; cbn [snd]. ring.
Qed.

(** X14.  The self-energy of the square lattice is dissipative: for a positive
    hopping the imaginary part of the array [square_selfenergy] returns is
    negative semidefinite, [sum_ij x_i x_j Im(result[i, j]) <= 0] for every
    real vector [x]. *)
Theorem square_selfenergy_dissipative (width : nat) (hopping fermi_energy : R)
        (x : nat -> R) :
  0 < hopping ->
  exists result,
    square_selfenergy width hopping fermi_energy = Ok result /\
    Rsum (map (fun i => Rsum (map (fun j => x i * x j * Im (get result i j))
                                  (seq 0 width)))
              (seq 0 width)) <= 0.
Proof.
  intros Hh. assert (Hnz : hopping <> 0) by lra.
  destruct (@square_selfenergy_entries width hopping fermi_energy Hnz)
    as [result [Hr [_ He]]].
  exists result. split; [exact Hr | ].
  set (c := fun p => hopping *
              Im (ClosedForm.factor (ClosedForm.q width hopping fermi_energy p))).
  set (S := fun p => Rsum (map (fun i => x i * ClosedForm.psi width p i) (seq 0 width))).
  assert (Hq : Rsum (map (fun i => Rsum (map (fun j => x i * x j * Im (get result i j))
                                             (seq 0 width))) (seq 0 width)) =
               Rsum (map (fun p => c p * (S p * S p)) (seq 0 width))).
  { transitivity
      (Rsum (map (fun i => Rsum (map (fun p =>
         Rsum (map (fun j => c p * ((x i * ClosedForm.psi width p i) *
                                    (x j * ClosedForm.psi width p j)))
                   (seq 0 width))) (seq 0 width))) (seq 0 width))).
    - apply Rsum_map_ext. intros i Hi. apply in_seq in Hi.
      etransitivity;
        [ | exact (Rsum_map_swap _ _
                     (fun j p => c p * ((x i * ClosedForm.psi width p i) *
                                        (x j * ClosedForm.psi width p j)))
                     (seq 0 width) (seq 0 width))].
      apply Rsum_map_ext. intros j Hj. apply in_seq in Hj.
      rewrite He by lia. rewrite Im_entry.
      etransitivity; [symmetry; apply Rsum_map_scal | ].
      apply Rsum_map_ext. intros p _. unfold c. ring.
    - etransitivity;
        [exact (Rsum_map_swap _ _
                  (fun i p => Rsum (map (fun j => c p * ((x i * ClosedForm.psi width p i) *
                                        (x j * ClosedForm.psi width p j))) (seq 0 width)))
                  (seq 0 width) (seq 0 width)) | ].
      apply Rsum_map_ext. intros p _.
      transitivity (Rsum (map (fun i => (c p * S p) * (x i * ClosedForm.psi width p i))
                              (seq 0 width))).
      + apply Rsum_map_ext. intros i _.
        transitivity (c p * (x i * ClosedForm.psi width p i) * S p); [ | ring].
        unfold S. etransitivity; [ | apply Rsum_map_scal].
        apply Rsum_map_ext. intros j _. ring.
      + etransitivity; [apply Rsum_map_scal | ]. fold (S p). ring. }
  rewrite Hq. apply Rsum_nonpos. apply Forall_forall. intros y Hy.
  apply in_map_iff in Hy. destruct Hy as [p [<- _]].
  assert (Hc : c p <= 0).
  { unfold c. rewrite <- f_factor.
    pose proof (f_root (ClosedForm.q width hopping fermi_energy p)) as [_ [_ Hi]].
    nra. }
  nra.
Qed.

Lemma square_selfenergy_dissipative_witness :
  exists result,
    square_selfenergy 5 1 (3 / 10) = Ok result /\
    Rsum (map (fun i => Rsum (map (fun j => 1 * 1 * Im (get result i j)) (seq 0 5)))
              (seq 0 5)) <= 0.
Proof.
  apply (square_selfenergy_dissipative 5 1 (3 / 10) (fun _ => 1)). lra.
Defined.



(** X16.  A lead whose hopping is identically zero has no self-energy: when the
    solver answers the empty system left by [modes] with an array of [m]
    columns, [selfenergy] returns the zero matrix of shape [(m, m)]; when
    the solver rejects the empty system, [selfenergy] raises its error. *)
Theorem selfenergy_zero_hopping (K : LinAlg) (h_cell h_hop : matrix) (tol : R)
        (n m : nat) :
  shape h_cell = (n, n) -> shape h_hop = (n, m) -> all_zero h_hop ->
  match la_solve K (zeros 0 0) (zeros 0 m) with
  | Some x => ncols x = m -> selfenergy K h_cell h_hop tol = Ok (zeros m m)
  | None => selfenergy K h_cell h_hop tol = Err LinAlgError
  end.
Proof.
  unfold shape. intros Hc Hh Hz.
  injection Hc as Hr Hcc. injection Hh as Hhr Hhc.
  unfold selfenergy, modes. rewrite Hr, Hcc, Hhr, Hhc, Nat.eqb_refl.
  rewrite (complex_any_all_zero Hz). cbn [negb orb bind snd].
  unfold selfenergy_of. cbn [sqrt_hop vecs vecslmbdainv nmodes].
  change (cols_from 0 (zeros 0 0)) with (zeros 0 0).
  change (conj (transpose (zeros m 0))) with (zeros 0 m).
  destruct (la_solve K (zeros 0 0) (zeros 0 m)) as [x | ]; cbn [lift bind]; [ | reflexivity].
  intros Hx. f_equal. unfold dot. cbn [nrows ncols zeros tabulate]. rewrite Hx.
  reflexivity.
Qed.

Lemma selfenergy_zero_hopping_witness :
  selfenergy chain_empty h_chain h_chain tol_default = Ok (zeros 1 1).
Proof.
  refine (selfenergy_zero_hopping chain_empty h_chain h_chain tol_default 1 1 _ _ _ _).
  - reflexivity.
  - reflexivity.
  - repeat constructor.
  - reflexivity.
Defined.

Section Generalized.

Variable K : LinAlg.

Ltac bind_inv H :=
  match type of H with
  | bind ?c _ = Ok _ =>
      let E := fresh "E" in
      destruct c eqn:E; cbn [bind] in H; [ | discriminate H]
  end.

Lemma reduce_pencil_generalized (A B : matrix) (eps tol : R) (stab1 : bool)
      (A' B' : matrix) :
  reduce_pencil K A B eps tol stab1 = Ok (A', Some B') ->
  stab1 = false /\ A' = A /\ B' = B /\
  exists lu_b, kla_lu_factor K B = Some lu_b /\
               kla_rcond_from_lu K lu_b (norm1 B) <= eps * tol.
Proof.
  unfold reduce_pencil. destruct (kla_lu_factor K B) as [lu_b | ]; cbn [lift bind];
    [ | discriminate].
  destruct stab1; cbn [negb].
  - destruct (kla_lu_solve K lu_b A); cbn [lift bind]; intros H; discriminate H.
  - destruct (Rltb (eps * tol) (kla_rcond_from_lu K lu_b (norm1 B))) eqn:Hr.
    + destruct (kla_lu_solve K lu_b A); cbn [lift bind]; intros H; discriminate H.
    + intros H. injection H as <- <-. apply Rltb_false in Hr.
      repeat split; try reflexivity. now exists lu_b.
Qed.

(** X17.  [setup_linsys] hands a generalized eigenproblem [(A, B)] to the solver
    only on the path through the singular values of the hopping ([v] is
    present), only when [stabilization[1]] is not set, and only when the
    reciprocal condition number of [B] is at most [eps * tol], with
    [eps = finfo.eps * tol]; in every other successful call the second
    matrix is [None].  In particular [stabilization[1] = True] always gives
    a regular problem. *)
Theorem setup_linsys_generalized_only_if (h_cell h_hop : matrix) (tol : R)
        (stabilization : stabilization_t) (ls : Linsys) (B : matrix) :
  setup_linsys K h_cell h_hop tol stabilization = Ok ls ->
  snd (eigenproblem ls) = Some B ->
  snd (stabilization_flags stabilization) = false /\
  v ls <> None /\
  exists lu_b, kla_lu_factor K B = Some lu_b /\
               kla_rcond_from_lu K lu_b (norm1 B) <= finfo_eps K * tol * tol.
Proof.
  intros H HB. apply setup_linsys_ok_inv in H.
  destruct H as [_ [u [s [vh [k [_ [[_ [_ H]] | [_ H]]]]]]]].
  - apply fast_path_ok in H. destruct H as [_ [_ H]]. congruence.
  - unfold general_path in H. bind_inv H. destruct p as [u' v'].
    bind_inv H. destruct p as [[h sol] need]. bind_inv H. destruct p as [A B0].
    bind_inv H. injection H as <-. cbn [eigenproblem v snd] in *.
    destruct p as [A' oB]. cbn [snd] in HB. subst oB.
    apply reduce_pencil_generalized in E2.
    destruct E2 as [Hs [_ [-> Hlu]]].
    split; [exact Hs | ]. split; [discriminate | exact Hlu].
Qed.

End Generalized.

Lemma large_hopping_svd :
  hopping_svd chain t_chain (finfo_eps chain * tol_large) = Ok (mat1 C1, [1], mat1 C1, 1%nat).
Proof.
  unfold hopping_svd. rewrite chain_svd. eval_R. reflexivity.
Qed.

Lemma large_stabilize :
  stabilize chain h_chain (mat1 C1) (mat1 C1) (finfo_eps chain * tol_large) =
  Ok (h_regularized, h_regularized, true).
Proof.
  unfold stabilize. rewrite chain_regularized.
  eval_R. sqrt_is 2. sqrt_is (1 / 2). r_vals lra. eval_R. reflexivity.
Qed.

Lemma large_onsite_inverse :
  onsite_inverse chain h_chain t_chain (mat1 C1) (mat1 C1)
                 (finfo_eps chain * tol_large) (Some false) =
  Ok (h_regularized, h_regularized, true).
Proof.
  unfold onsite_inverse. cbn [add_imaginary].
  assert (Hlu : kla_lu_factor chain h_chain = Some h_chain) by reflexivity.
  rewrite Hlu. cbn [lift bind].
  assert (Hr : kla_rcond_from_lu chain h_chain (norm1 h_chain) = 0).
  { eval_R. reflexivity. }
  rewrite Hr. unfold tol_large. cbn [finfo_eps chain]. r_tests lra.
  apply large_stabilize.
Qed.

Lemma large_reduce_pencil :
  reduce_pencil chain A_pencil B_pencil (finfo_eps chain * tol_large) tol_large false =
  Ok (A_pencil, Some B_pencil).
Proof.
  unfold reduce_pencil.
  assert (Hlu : kla_lu_factor chain B_pencil = Some B_pencil) by reflexivity.
  rewrite Hlu. cbn [lift bind negb].
  cbn [kla_rcond_from_lu kla_lu_solve chain].
  rewrite chain_B_singular, chain_B_inverse, chain_B_norm, chain_B_inverse_norm.
  unfold tol_large. cbn [finfo_eps chain]. r_tests lra. reflexivity.
Qed.

Lemma large_setup_linsys :
  setup_linsys chain h_chain t_chain tol_large forced = Ok linsys_generalized.
Proof.
  unfold setup_linsys. rewrite chain_complex_any. cbn [negb].
  rewrite large_hopping_svd. cbn [bind]. cbn [h_chain mat1 nrows Nat.eqb is_none forced andb].
  unfold general_path. rewrite chain_reduced_bases. cbn [bind].
  cbn [stabilization_flags forced fst snd].
  rewrite large_onsite_inverse. cbn [bind]. rewrite chain_pencil. cbn [bind].
  rewrite large_reduce_pencil. cbn [bind]. reflexivity.
Qed.

Lemma setup_linsys_generalized_only_if_witness :
  snd (stabilization_flags forced) = false /\
  v linsys_generalized <> None /\
  exists lu_b, kla_lu_factor chain B_pencil = Some lu_b /\
               kla_rcond_from_lu chain lu_b (norm1 B_pencil) <=
               finfo_eps chain * tol_large * tol_large.
Proof.
  exact (setup_linsys_generalized_only_if chain h_chain t_chain tol_large forced
           linsys_generalized B_pencil large_setup_linsys eq_refl).
Defined.
